(** * TextFileSorter: a shallow embedding of [main.cpp] and its properties

    The program reads every file of a directory line by line, keeps the
    lines made of letters only, sorts the collected lines with a merge
    sort parameterised by one of three string comparers, and writes the
    result.  This development embeds the line validator, the file loader,
    the three comparers, [merge], [MergeSort], [MergeSortWrapper] and the
    two ingestion strategies, and proves the properties the specification
    states about them.

    Conventions of the embedding.
    - [std::string] is a [string]; its characters are looked at through
      [chars].  [char] is the signed 8-bit type of the usual ABIs, read by
      [char_val].
    - [std::vector<std::string>] is a [list string].  [operator[]] outside
      the vector and the construction of a vector with a negative size have
      no defined result in C++: the embedding returns [Fault] there.
    - [int] is the 32-bit two's complement type and [size_t] the 64-bit
      unsigned one; arithmetic on them is written with [to_int] and
      [to_size_t].
    - [unsigned int] is the 32-bit unsigned type: the cursor of the two
      alphabetical comparers is taken modulo 2^32 ([to_unsigned]).
    - Loops over indices carry a fuel argument.  The loops of [merge] and
      the recursion of [MergeSort] get an amount that suffices on valid
      indices.  The loop of an alphabetical comparer gets one more than the
      number of values its cursor can take before it reaches the end of a
      string or wraps: a loop that has not returned by then never does, so
      [OutOfFuel] from a comparer stands for a comparison that does not
      return.
    - Console output is kept for [MergeSortWrapper], and for [ReadFile]
      and [WriteAndPrint] in their versions with a console; the clock
      difference [WriteAndPrint] prints is an input of the embedding. *)

From Stdlib Require Import ZArith Lia Ascii String List Permutation Sorted.
From Stdlib Require Import DecimalString.
From stdpp Require Import base list strings sorting relations.

Local Open Scope Z_scope.

(** ** Results of partial computations *)

Inductive outcome (A : Type) : Type :=
  | Done (a : A)
  | Fault
  | OutOfFuel.

Arguments Done {A} a.
Arguments Fault {A}.
Arguments OutOfFuel {A}.

Definition bind {A B : Type} (m : outcome A) (k : A -> outcome B) : outcome B :=
  match m with
  | Done a => k a
  | Fault => Fault
  | OutOfFuel => OutOfFuel
  end.

Notation "'let*' x := m 'in' k" := (bind m (fun x => k))
  (at level 10, x name, m at level 100, k at level 200).
Notation "'let*' ' p := m 'in' k" := (bind m (fun x => match x with p => k end))
  (at level 10, p pattern, m at level 100, k at level 200).

(** ** Machine integers *)

Definition INT_MIN : Z := -2147483648.
Definition INT_MAX : Z := 2147483647.

(** Conversion to [int]: reduction modulo 2^32 into [INT_MIN .. INT_MAX]. *)
Definition to_int (z : Z) : Z := (z + 2147483648) mod 4294967296 - 2147483648.

(** Conversion to [size_t]: reduction modulo 2^64. *)
Definition to_size_t (z : Z) : Z := z mod 18446744073709551616.

(** Conversion to [unsigned int]: reduction modulo 2^32. *)
Definition to_unsigned (z : Z) : Z := z mod 4294967296.

Definition int_add (a b : Z) : Z := to_int (a + b).
Definition int_sub (a b : Z) : Z := to_int (a - b).
(** [a / b] on [int] truncates toward zero. *)
Definition int_div (a b : Z) : Z := to_int (Z.quot a b).

Definition is_int (z : Z) : Prop := INT_MIN <= z <= INT_MAX.

(** ** Characters and strings *)

Definition chars (s : string) : list ascii := list_ascii_of_string s.

(** The value of a [char]: codes 128..255 are the negative values. *)
Definition char_val (c : ascii) : Z :=
  let n := Z.of_N (N_of_ascii c) in
  if n <? 128 then n else n - 256.

Definition char_lt (c1 c2 : ascii) : bool := char_val c1 <? char_val c2.
Definition char_gt (c1 c2 : ascii) : bool := char_val c2 <? char_val c1.
Definition char_ne (c1 c2 : ascii) : bool := negb (char_val c1 =? char_val c2).

Definition string_length (s : string) : Z := Z.of_nat (length (chars s)).

(** ** The comparers (main.cpp, lines 26-45 and 208-247) *)

Record IStringComparer : Type := {
  IsFirstAboveSecond : string -> string -> outcome bool
}.

(** [s[i]] on a string, with the [unsigned int] cursor as index. *)
Definition string_at (s : string) (i : Z) : outcome ascii :=
  match chars s !! Z.to_nat i with
  | Some c => Done c
  | None => Fault
  end.

(** The loop of [AlphAscStrComp::IsFirstAboveSecond], from cursor [i] on. *)
Fixpoint AlphAsc_loop (fuel : nat) (firstString secondString : string) (i : Z)
  : outcome bool :=
  match fuel with
  | O => OutOfFuel
  | S fuel' =>
      if (i <? string_length firstString) && (i <? string_length secondString) then
        let* c1 := string_at firstString i in
        let* c2 := string_at secondString i in
        if char_lt c1 c2 then Done true
        else if char_gt c1 c2 then Done false
        else AlphAsc_loop fuel' firstString secondString (to_unsigned (i + 1))
      else Done (string_length firstString <? string_length secondString)
  end.

(** The loop of [AlphDescStrComp::IsFirstAboveSecond], from cursor [i] on. *)
Fixpoint AlphDesc_loop (fuel : nat) (firstString secondString : string) (i : Z)
  : outcome bool :=
  match fuel with
  | O => OutOfFuel
  | S fuel' =>
      if (i <? string_length firstString) && (i <? string_length secondString) then
        let* c1 := string_at firstString i in
        let* c2 := string_at secondString i in
        if char_gt c1 c2 then Done true
        else if char_lt c1 c2 then Done false
        else AlphDesc_loop fuel' firstString secondString (to_unsigned (i + 1))
      else Done (string_length secondString <? string_length firstString)
  end.

(** One more than the number of cursor values before the end of the
    shorter string or the wrap at 2^32, whichever comes first. *)
Definition cursor_fuel (firstString secondString : string) : nat :=
  S (Z.to_nat (Z.min (Z.min (string_length firstString) (string_length secondString))
                     4294967296)).

Definition AlphAscStrComp : IStringComparer := {|
  IsFirstAboveSecond firstString secondString :=
    AlphAsc_loop (cursor_fuel firstString secondString) firstString secondString 0
|}.

Definition AlphDescStrComp : IStringComparer := {|
  IsFirstAboveSecond firstString secondString :=
    AlphDesc_loop (cursor_fuel firstString secondString) firstString secondString 0
|}.

(** The loop of [LastLetterAscStrComp::IsFirstAboveSecond].  [r1] and [r2]
    are what the two reverse iterators still have ahead of them: [rbegin()]
    is the reversed string and [rend()] is reached on the empty list.  The
    three tests are made in the order of the source. *)
Fixpoint LastLetterAsc_loop (r1 r2 : list ascii) : bool :=
  match r1 with
  | [] => true
  | c1 :: r1' =>
      match r2 with
      | [] => false
      | c2 :: r2' =>
          if char_ne c1 c2 then char_lt c1 c2
          else LastLetterAsc_loop r1' r2'
      end
  end.

Definition LastLetterAscStrComp : IStringComparer := {|
  IsFirstAboveSecond firstString secondString :=
    Done (LastLetterAsc_loop (rev (chars firstString)) (rev (chars secondString)))
|}.

(** ** Vectors of strings *)

Abbreviation vec := (list string).

Definition vec_size (v : vec) : Z := Z.of_nat (length v).

(** [v[i]] read. *)
Definition vec_at (v : vec) (i : Z) : outcome string :=
  if i <? 0 then Fault
  else match v !! Z.to_nat i with
       | Some x => Done x
       | None => Fault
       end.

(** [v[i] = x]. *)
Definition vec_assign (v : vec) (i : Z) (x : string) : outcome vec :=
  if (0 <=? i) && (i <? vec_size v) then Done (<[Z.to_nat i := x]> v)
  else Fault.

(** [vector<string> a(n)]: [n] empty strings. *)
Definition vec_new (n : Z) : outcome vec :=
  if n <? 0 then Fault else Done (replicate (Z.to_nat n) EmptyString).

(** ** The merge sort (main.cpp, lines 251-342) *)

(** Fuel for a loop that counts up to [n]. *)
Definition loop_fuel (n : Z) : nat := S (Z.to_nat n).

(** The two copy loops of [merge],
    [for (i = 0; i < size; i++) arr[i] = originVec[base + i];]
    with [base] being [upper] for the upper half and [mid + 1] for the
    lower one. *)
Fixpoint fill (fuel : nat) (originVec : vec) (base size : Z) (arr : vec) (i : Z)
  : outcome vec :=
  match fuel with
  | O => OutOfFuel
  | S fuel' =>
      if i <? size then
        let* x := vec_at originVec (int_add base i) in
        let* arr' := vec_assign arr i x in
        fill fuel' originVec base size arr' (int_add i 1)
      else Done arr
  end.

(** The first [while] of [merge]: both halves still have elements. *)
Fixpoint merge_both (fuel : nat) (stringComparer : IStringComparer)
    (upArray lowArray : vec) (upperSize lowerSize : Z)
    (originVec : vec) (i j k : Z) : outcome (vec * Z * Z * Z) :=
  match fuel with
  | O => OutOfFuel
  | S fuel' =>
      if (i <? upperSize) && (j <? lowerSize) then
        let* u := vec_at upArray i in
        let* l := vec_at lowArray j in
        let* above := IsFirstAboveSecond stringComparer u l in
        if above then
          let* originVec' := vec_assign originVec k u in
          merge_both fuel' stringComparer upArray lowArray upperSize lowerSize
                     originVec' (int_add i 1) j (int_add k 1)
        else
          let* originVec' := vec_assign originVec k l in
          merge_both fuel' stringComparer upArray lowArray upperSize lowerSize
                     originVec' i (int_add j 1) (int_add k 1)
      else Done (originVec, i, j, k)
  end.

(** The last two [while]s of [merge]:
    [while (i < size) { originVec[k] = arr[i++]; k++; }]. *)
Fixpoint merge_rest (fuel : nat) (arr : vec) (size : Z)
    (originVec : vec) (i k : Z) : outcome (vec * Z * Z) :=
  match fuel with
  | O => OutOfFuel
  | S fuel' =>
      if i <? size then
        let* x := vec_at arr i in
        let* originVec' := vec_assign originVec k x in
        merge_rest fuel' arr size originVec' (int_add i 1) (int_add k 1)
      else Done (originVec, i, k)
  end.

Definition merge (originVec : vec) (upper mid lower : Z)
    (stringComparer : IStringComparer) : outcome vec :=
  let upperSize := int_add (int_sub mid upper) 1 in
  let lowerSize := int_sub lower mid in
  let* upArray := vec_new upperSize in
  let* lowArray := vec_new lowerSize in
  let* upArray := fill (loop_fuel upperSize) originVec upper upperSize upArray 0 in
  let* lowArray :=
    fill (loop_fuel lowerSize) originVec (int_add mid 1) lowerSize lowArray 0 in
  let* '(originVec, i, j, k) :=
    merge_both (loop_fuel (upperSize + lowerSize)) stringComparer
               upArray lowArray upperSize lowerSize originVec 0 0 upper in
  let* '(originVec, _, k) :=
    merge_rest (loop_fuel upperSize) upArray upperSize originVec i k in
  let* '(originVec, _, _) :=
    merge_rest (loop_fuel lowerSize) lowArray lowerSize originVec j k in
  Done originVec.

Fixpoint MergeSort_rec (fuel : nat) (originVec : vec) (upper lower : Z)
    (stringComparer : IStringComparer) : outcome vec :=
  match fuel with
  | O => OutOfFuel
  | S fuel' =>
      if upper <? lower then
        let mid := int_add upper (int_div (int_sub lower upper) 2) in
        let* originVec := MergeSort_rec fuel' originVec upper mid stringComparer in
        let* originVec :=
          MergeSort_rec fuel' originVec (int_add mid 1) lower stringComparer in
        merge originVec upper mid lower stringComparer
      else Done originVec
  end.

(** The recursion of [MergeSort] halves the range [upper .. lower], so its
    depth stays below the width of the range. *)
Definition MergeSort (originVec : vec) (upper lower : Z)
    (stringComparer : IStringComparer) : outcome vec :=
  MergeSort_rec (loop_fuel (lower - upper)) originVec upper lower stringComparer.

(** [enum class ESortType { AlphAsc, AlphDesc, LastLetterAsc }]: a value of
    the type is a value of its underlying type [int]; the enumerators are
    0, 1 and 2. *)
Definition ESortType : Type := Z.
Definition AlphAsc : ESortType := 0.
Definition AlphDesc : ESortType := 1.
Definition LastLetterAsc : ESortType := 2.

Definition unknown_sort_type_message : string :=
  "ERROR: Unknown sort type in MergeSortWrapper. defaulting to AlphAsc".

(** The [switch] of [MergeSortWrapper]: the comparer it creates and what it
    writes to [cerr]. *)
Definition select_comparer (sortType : ESortType) : list string * IStringComparer :=
  match sortType with
  | 0 => ([], AlphAscStrComp)
  | 1 => ([], AlphDescStrComp)
  | 2 => ([], LastLetterAscStrComp)
  | _ => ([unknown_sort_type_message], AlphAscStrComp)
  end.

(** [listToSort.size() - 1] is computed on [size_t] and passed as an [int]. *)
Definition last_index (listToSort : vec) : Z :=
  to_int (to_size_t (vec_size listToSort - 1)).

(** [MergeSortWrapper] returns what it wrote to [cerr] and the sorted copy
    of its argument. *)
Definition MergeSortWrapper (listToSort : vec) (sortType : ESortType)
  : list string * outcome vec :=
  let '(cerr, stringSorter) := select_comparer sortType in
  (cerr, MergeSort listToSort 0 (last_index listToSort) stringSorter).

(** The specification's [Sort(L, P)]: the list [MergeSortWrapper] returns. *)
Definition Sort (L : vec) (P : ESortType) : outcome vec := snd (MergeSortWrapper L P).

(** ** The line validator and the file loader (main.cpp, lines 159-203) *)

(** [std::isdigit] and [std::isalnum] on the [int] value of a character, in
    the "C" locale the program runs in: the digits, and the digits and the
    Latin letters. *)
Definition isdigit (c : Z) : bool := (48 <=? c) && (c <=? 57).
Definition isalnum (c : Z) : bool :=
  isdigit c || ((65 <=? c) && (c <=? 90)) || ((97 <=? c) && (c <=? 122)).

(** The range-[for] of [ContainsSpecial]. *)
Fixpoint ContainsSpecial_loop (str : list ascii) : bool :=
  match str with
  | [] => false
  | ch :: rest =>
      if isdigit (char_val ch) || negb (isalnum (char_val ch)) then true
      else ContainsSpecial_loop rest
  end.

Definition ContainsSpecial (str : string) : bool := ContainsSpecial_loop (chars str).

(** [line.empty()]. *)
Definition string_empty (line : string) : bool :=
  match line with
  | EmptyString => true
  | String _ _ => false
  end.

(** What the program can read: for a file that opens, the lines [getline]
    yields from it, in order; [None] for a file that does not open. *)
Definition file_system : Type := string -> option (list string).

(** The [while (getline(fileIn, line))] loop of [ReadFile]. *)
Fixpoint ReadFile_loop (lines : list string) (listOut : vec) : vec :=
  match lines with
  | [] => listOut
  | line :: rest =>
      if negb (string_empty line) then
        if ContainsSpecial line then ReadFile_loop rest listOut
        else ReadFile_loop rest (listOut ++ [line])
      else ReadFile_loop rest listOut
  end.

Definition ReadFile (fs : file_system) (fileName : string) : vec :=
  match fs fileName with
  | None => []
  | Some lines => ReadFile_loop lines []
  end.

(** The specification's [IsValid(text)]: the two tests a line passes before
    [ReadFile] keeps it. *)
Definition IsValid (text : string) : bool :=
  negb (string_empty text) && negb (ContainsSpecial text).

(** ** The ingestion strategies (main.cpp, lines 86-153) *)

(** The loop of [singleThreading] over the file list. *)
Fixpoint singleThreading_loop (fs : file_system) (fileList : list string)
    (finalList : vec) : vec :=
  match fileList with
  | [] => finalList
  | i :: rest =>
      let fileStringList := ReadFile fs i in
      singleThreading_loop fs rest (finalList ++ fileStringList)
  end.

(** [singleThreading] yields the list it hands to [WriteAndPrint]. *)
Definition singleThreading (fs : file_system) (fileList : list string)
    (sortType : ESortType) : outcome vec :=
  Sort (singleThreading_loop fs fileList []) sortType.

(** [multiThreading] starts one task per file.  A task reads its file, then
    sets its [done] flag, then returns, which makes its future ready. *)
Inductive task : Type :=
  | Reading
  | Flagged (result : vec)
  | Returned (result : vec).

Definition done_flag (t : task) : bool :=
  match t with
  | Reading => false
  | Flagged _ | Returned _ => true
  end.

(** The calling thread polls the flags, then collects the futures in the
    order of the file list, then sorts. *)
Inductive orchestrator : Type :=
  | Polling
  | Gathering (next : nat) (finalList : vec)
  | Finished (output : outcome vec).

Record mt_state : Type := {
  tasks : list task;
  caller : orchestrator
}.

Definition mt_init (fileList : list string) : mt_state :=
  {| tasks := replicate (length fileList) Reading; caller := Polling |}.

(** One step of some thread; the threads interleave in any order. *)
Inductive mt_step (fs : file_system) (fileList : list string) (sortType : ESortType)
  : mt_state -> mt_state -> Prop :=
  | step_read s i file :
      fileList !! i = Some file -> tasks s !! i = Some Reading ->
      mt_step fs fileList sortType s
        {| tasks := <[i := Flagged (ReadFile fs file)]> (tasks s); caller := caller s |}
  | step_return s i result :
      tasks s !! i = Some (Flagged result) ->
      mt_step fs fileList sortType s
        {| tasks := <[i := Returned result]> (tasks s); caller := caller s |}
  | step_poll_again s :
      caller s = Polling -> forallb done_flag (tasks s) = false ->
      mt_step fs fileList sortType s s
  | step_poll_done s :
      caller s = Polling -> forallb done_flag (tasks s) = true ->
      mt_step fs fileList sortType s {| tasks := tasks s; caller := Gathering 0 [] |}
  | step_get s next finalList result :
      caller s = Gathering next finalList ->
      tasks s !! next = Some (Returned result) ->
      mt_step fs fileList sortType s
        {| tasks := tasks s; caller := Gathering (S next) (finalList ++ result) |}
  | step_sort s next finalList :
      caller s = Gathering next finalList -> next = length (tasks s) ->
      mt_step fs fileList sortType s
        {| tasks := tasks s; caller := Finished (Sort finalList sortType) |}.

(** [multiThreading fs fileList sortType output]: some interleaving of the
    tasks and the caller ends with [output] handed to [WriteAndPrint]. *)
Definition multiThreading (fs : file_system) (fileList : list string)
    (sortType : ESortType) (output : outcome vec) : Prop :=
  exists s : mt_state,
    rtc (mt_step fs fileList sortType) (mt_init fileList) s
    /\ caller s = Finished output.

(** ** Files as text, diagnostics and the output (main.cpp, lines 169-203 and 345-360) *)

Definition newline : ascii := "010"%char.

(** [endl], as the text it adds to a stream. *)
Definition endl : string := String newline EmptyString.

(** The lines that [while (getline(fileIn, line))] yields from the
    characters of a file: [getline] moves characters to [line] up to the
    next newline, which it takes from the stream and drops, or up to the end
    of the file; it fails, and the loop ends, when the end is reached and
    no character was taken. *)
Fixpoint getline_loop (input line : list ascii) : list string :=
  match input with
  | [] =>
      match line with
      | [] => []
      | _ :: _ => [string_of_list_ascii line]
      end
  | c :: rest =>
      if Ascii.eqb c newline then string_of_list_ascii line :: getline_loop rest []
      else getline_loop rest (line ++ [c])
  end.

Definition file_lines (text : string) : list string := getline_loop (chars text) [].

(** The files by their text; a file that is there opens for reading. *)
Definition disk : Type := string -> option string.

Definition open_files (d : disk) : file_system :=
  fun fileName => option_map file_lines (d fileName).

(** The two lines [ReadFile] writes to [cerr] for a line it rejects. *)
Definition rejected_message (line fileName : string) : string :=
  "ERROR: special characters or numbers: " +:+ line +:+ " in file: " +:+ fileName
  +:+ endl +:+ line +:+ " has been removed" +:+ endl.

Definition unable_message (fileName : string) : string :=
  "Unable to open file, please close input files: " +:+ fileName +:+ endl.

(** The loop of [ReadFile] with what it writes to [cerr]. *)
Fixpoint ReadFile_console_loop (fileName : string) (lines : list string)
    (cerr : string) (listOut : vec) : string * vec :=
  match lines with
  | [] => (cerr, listOut)
  | line :: rest =>
      if negb (string_empty line) then
        if ContainsSpecial line then
          ReadFile_console_loop fileName rest
            (cerr +:+ rejected_message line fileName) listOut
        else ReadFile_console_loop fileName rest cerr (listOut ++ [line])
      else ReadFile_console_loop fileName rest cerr listOut
  end.

(** [ReadFile] with its console: what it writes to [cout], what it writes to
    [cerr], and the list it returns.  A stream that is open after its
    construction is in a good state, so the second test of the source,
    [if (!fileIn)], never holds. *)
Definition ReadFile_console (fs : file_system) (fileName : string)
  : string * string * vec :=
  match fs fileName with
  | None => (unable_message fileName, EmptyString, [])
  | Some lines =>
      let '(cerr, listOut) := ReadFile_console_loop fileName lines EmptyString [] in
      (EmptyString, cerr, listOut)
  end.

Definition output_path (outputName : string) : string :=
  "../OutputText/" +:+ outputName +:+ ".txt".

(** [cout << clockCounter]: an [int] in decimal. *)
Definition print_int (n : Z) : string := NilZero.string_of_int (Z.to_int n).

(** The range-[for] of [WriteAndPrint], on the text of the output file. *)
Fixpoint WriteAndPrint_loop (finalList : vec) (fileOut : string) : string :=
  match finalList with
  | [] => fileOut
  | i :: rest => WriteAndPrint_loop rest (fileOut +:+ i +:+ endl)
  end.

(** [WriteAndPrint] yields what it writes to [cout] and the files it leaves.
    [opens] tells whether [ofstream fileOut(filePath, ofstream::trunc)]
    opened the file; on a stream that did not open, [<<] and [close] do
    nothing. *)
Definition WriteAndPrint (opens : bool) (d : disk) (finalList : vec)
    (outputName : string) (clockCounter : Z) : string * disk :=
  let cout :=
    endl +:+ outputName +:+ String "009"%char "- Time Taken (clocks): "
    +:+ print_int clockCounter +:+ endl in
  let filePath := output_path outputName in
  if opens then
    (cout,
     fun path =>
       if String.eqb path filePath then Some (WriteAndPrint_loop finalList EmptyString)
       else d path)
  else (cout, d).

(** [singleThreading] with its output file; the clock difference it prints
    is an input of the embedding. *)
Definition singleThreading_output (opens : bool) (d : disk) (fileList : list string)
    (sortType : ESortType) (outputName : string) (clockCounter : Z)
  : outcome (string * disk) :=
  let* finalList := singleThreading (open_files d) fileList sortType in
  Done (WriteAndPrint opens d finalList outputName clockCounter).

(** * Auxiliary results *)

(** ** Machine integers *)

Lemma to_int_small (z : Z) : is_int z -> to_int z = z.
Proof.
  unfold is_int, INT_MIN, INT_MAX, to_int. intros Hz.
  rewrite Z.mod_small by lia. lia.
Qed.

Lemma to_int_is_int (z : Z) : is_int (to_int z).
Proof.
  unfold is_int, INT_MIN, INT_MAX, to_int.
  pose proof (Z.mod_pos_bound (z + 2147483648) 4294967296). lia.
Qed.

(** Index arithmetic that stays inside [int] is exact. *)
Ltac int_exact :=
  unfold int_add, int_sub, int_div;
  repeat match goal with
         | |- context [to_int ?z] =>
             rewrite (to_int_small z) by (unfold is_int, INT_MIN, INT_MAX; lia)
         end.

(** ** The lexicographic order behind the comparers *)

Lemma char_val_inj (x y : ascii) : char_val x = char_val y -> x = y.
Proof.
  unfold char_val. intros H.
  pose proof (N_ascii_bounded x). pose proof (N_ascii_bounded y).
  assert (N_of_ascii x = N_of_ascii y) as E.
  { destruct (Z.ltb_spec (Z.of_N (N_of_ascii x)) 128),
             (Z.ltb_spec (Z.of_N (N_of_ascii y)) 128); lia. }
  rewrite <- (ascii_N_embedding x), <- (ascii_N_embedding y). now rewrite E.
Qed.

(** Three-way lexicographic comparison of character sequences by [char]
    value, a proper prefix coming first. *)
Fixpoint lex_compare (a b : list ascii) : comparison :=
  match a, b with
  | [], [] => Eq
  | [], _ :: _ => Lt
  | _ :: _, [] => Gt
  | x :: a', y :: b' =>
      match char_val x ?= char_val y with
      | Eq => lex_compare a' b'
      | c => c
      end
  end.

Definition lex_le (a b : list ascii) : Prop := lex_compare a b <> Gt.

Lemma lex_compare_refl (a : list ascii) : lex_compare a a = Eq.
Proof. induction a as [|x a IH]; simpl; [reflexivity|]. now rewrite Z.compare_refl. Qed.

Lemma lex_compare_eq (a b : list ascii) : lex_compare a b = Eq -> a = b.
Proof.
  revert b; induction a as [|x a IH]; intros [|y b]; simpl; try discriminate; auto.
  destruct (char_val x ?= char_val y) eqn:E; try discriminate.
  intros H. apply Z.compare_eq in E. apply char_val_inj in E. f_equal; auto.
Qed.

Lemma lex_compare_antisym (a b : list ascii) :
  lex_compare b a = CompOpp (lex_compare a b).
Proof.
  revert b; induction a as [|x a IH]; intros [|y b]; simpl; auto.
  rewrite (Z.compare_antisym (char_val x) (char_val y)).
  destruct (char_val x ?= char_val y); simpl; auto.
Qed.

Lemma lex_compare_lt_trans (a b c : list ascii) :
  lex_compare a b = Lt -> lex_compare b c = Lt -> lex_compare a c = Lt.
Proof.
  revert b c; induction a as [|x a IH]; intros [|y b] [|z c]; simpl;
    try discriminate; auto.
  destruct (Z.compare_spec (char_val x) (char_val y)) as [E1|E1|E1];
    destruct (Z.compare_spec (char_val y) (char_val z)) as [E2|E2|E2];
    try discriminate; intros H1 H2.
  - rewrite E1, E2, Z.compare_refl. eauto.
  - rewrite E1. now apply Z.compare_lt_iff in E2 as ->.
  - rewrite <- E2. now apply Z.compare_lt_iff in E1 as ->.
  - assert (char_val x < char_val z) as E by lia.
    now apply Z.compare_lt_iff in E as ->.
Qed.

Lemma lex_le_cases (a b : list ascii) : lex_le a b <-> a = b \/ lex_compare a b = Lt.
Proof.
  unfold lex_le. split.
  - destruct (lex_compare a b) eqn:E; intros H; [left|right|congruence]; auto.
    now apply lex_compare_eq.
  - intros [->|H]; [rewrite lex_compare_refl|rewrite H]; discriminate.
Qed.

Lemma lex_le_trans (a b c : list ascii) : lex_le a b -> lex_le b c -> lex_le a c.
Proof.
  rewrite !lex_le_cases. intros [->|H1] [->|H2]; auto.
  right. eapply lex_compare_lt_trans; eauto.
Qed.

Lemma lex_le_antisym (a b : list ascii) : lex_le a b -> lex_le b a -> a = b.
Proof.
  unfold lex_le. rewrite (lex_compare_antisym a b).
  destruct (lex_compare a b) eqn:E; simpl; try congruence.
  intros _ _. now apply lex_compare_eq.
Qed.

Lemma lex_le_total (a b : list ascii) : lex_le a b \/ lex_le b a.
Proof.
  unfold lex_le. rewrite (lex_compare_antisym a b).
  destruct (lex_compare a b); simpl; auto; left; discriminate.
Qed.

Lemma chars_inj (a b : string) : chars a = chars b -> a = b.
Proof.
  unfold chars. intros H.
  rewrite <- (string_of_list_ascii_of_string a), <- (string_of_list_ascii_of_string b).
  now rewrite H.
Qed.

Lemma rev_chars_inj (a b : string) : rev (chars a) = rev (chars b) -> a = b.
Proof.
  intros H. apply chars_inj.
  rewrite <- (rev_involutive (chars a)), H. apply rev_involutive.
Qed.

(** ** What the comparers answer, and when *)

Definition returns {A : Type} (m : outcome A) : Prop := exists a : A, m = Done a.

(** The answers of the three loops, read off [lex_compare]. *)
Definition lt_verdict (s1 s2 : list ascii) : bool :=
  match lex_compare s1 s2 with Lt => true | _ => false end.
Definition gt_verdict (s1 s2 : list ascii) : bool :=
  match lex_compare s1 s2 with Gt => true | _ => false end.
Definition le_verdict (s1 s2 : list ascii) : bool :=
  match lex_compare s1 s2 with Gt => false | _ => true end.

(** The number of values of an [unsigned int] cursor. *)
Definition cursor_range : nat := Z.to_nat 4294967296.

Lemma cursor_range_Z : Z.of_nat cursor_range = 4294967296.
Proof. unfold cursor_range. now rewrite Z2Nat.id. Qed.

Global Opaque cursor_range.

(** [decided n s1 s2]: walking [s1] and [s2] in step, one of them ends or
    the two differ within the first [n] positions. *)
Fixpoint decided (n : nat) (s1 s2 : list ascii) : Prop :=
  match n with
  | O => False
  | S n' =>
      match s1, s2 with
      | c1 :: s1', c2 :: s2' => c1 <> c2 \/ decided n' s1' s2'
      | _, _ => True
      end
  end.

Lemma ascii_eq_dec (c1 c2 : ascii) : c1 = c2 \/ c1 <> c2.
Proof. destruct (Ascii.ascii_dec c1 c2); auto. Qed.

Lemma decided_dec (n : nat) (s1 s2 : list ascii) : decided n s1 s2 \/ ~ decided n s1 s2.
Proof.
  revert s1 s2; induction n as [|n IH]; intros s1 s2; simpl; [tauto|].
  destruct s1 as [|c1 s1], s2 as [|c2 s2]; auto.
  destruct (ascii_eq_dec c1 c2), (IH s1 s2); tauto.
Qed.

Lemma decided_sym (n : nat) (s1 s2 : list ascii) : decided n s1 s2 -> decided n s2 s1.
Proof.
  revert s1 s2; induction n as [|n IH]; intros s1 s2; simpl; [tauto|].
  destruct s1 as [|c1 s1], s2 as [|c2 s2]; auto.
  intros [H|H]; [left; congruence|right; auto].
Qed.

Lemma decided_mono (n m : nat) (s1 s2 : list ascii) :
  (n <= m)%nat -> decided n s1 s2 -> decided m s1 s2.
Proof.
  revert m s1 s2; induction n as [|n IH]; intros m s1 s2 Hle; simpl; [tauto|].
  destruct m as [|m]; [lia|]. simpl.
  destruct s1 as [|c1 s1], s2 as [|c2 s2]; auto.
  intros [H|H]; [now left|right]. apply IH; [lia|assumption].
Qed.

Lemma decided_short (n : nat) (s1 s2 : list ascii) :
  (length s1 < n)%nat -> decided n s1 s2.
Proof.
  revert s1 s2; induction n as [|n IH]; intros s1 s2 Hlen; [lia|]. simpl.
  destruct s1 as [|c1 s1], s2 as [|c2 s2]; auto.
  right. apply IH. simpl in Hlen. lia.
Qed.

Lemma undecided_lookup (n : nat) (s1 s2 : list ascii) :
  ~ decided n s1 s2 ->
  forall j : nat, (j < n)%nat -> exists c : ascii, s1 !! j = Some c /\ s2 !! j = Some c.
Proof.
  revert s1 s2; induction n as [|n IH]; intros s1 s2 Hn j Hj; [lia|].
  simpl in Hn. destruct s1 as [|c1 s1], s2 as [|c2 s2]; try tauto.
  destruct (ascii_eq_dec c1 c2) as [->|Hne]; [|tauto].
  destruct j as [|j]; [now exists c2|].
  apply (IH s1 s2); [tauto|lia].
Qed.

(** Between two sequences that agree on their first [n] positions, in the
    lexicographic order, there are only sequences that agree with them. *)
Lemma undecided_between (n : nat) (s1 s2 s3 : list ascii) :
  lex_le s1 s2 -> lex_le s2 s3 -> ~ decided n s1 s3 ->
  ~ decided n s1 s2 /\ ~ decided n s2 s3.
Proof.
  revert s1 s2 s3; induction n as [|n IH]; intros s1 s2 s3 H12 H23 Hn; simpl; [tauto|].
  simpl in Hn. destruct s1 as [|c1 s1], s3 as [|c3 s3]; try tauto.
  destruct (ascii_eq_dec c1 c3) as [->|Hne]; [|tauto].
  destruct s2 as [|c2 s2].
  { exfalso. apply H12. reflexivity. }
  unfold lex_le in H12, H23. simpl in H12, H23.
  destruct (Z.compare_spec (char_val c3) (char_val c2)) as [E1|E1|E1];
    [|destruct (Z.compare_spec (char_val c2) (char_val c3)) as [E2|E2|E2];
      try lia; congruence|congruence].
  apply char_val_inj in E1 as <-. rewrite Z.compare_refl in H23.
  destruct (IH s1 s2 s3) as [Ha Hb]; [assumption|assumption|tauto|].
  split; intros [H|H]; tauto.
Qed.

(** The loop of [AlphAscStrComp], followed from cursor [i] while [n] cursor
    values are left before the wrap. *)
Lemma AlphAsc_loop_exact (a b : string) :
  forall (fuel i n : nat),
    (i + n = cursor_range)%nat ->
    (i <= length (chars a))%nat -> (i <= length (chars b))%nat ->
    decided n (drop i (chars a)) (drop i (chars b)) ->
    (Nat.min (Nat.min (length (chars a)) (length (chars b)) - i) n < fuel)%nat ->
    AlphAsc_loop fuel a b (Z.of_nat i)
    = Done (lt_verdict (drop i (chars a)) (drop i (chars b))).
Proof.
  pose proof cursor_range_Z as Hrange.
  intros fuel. induction fuel as [|fuel IH]; intros i n Hin Ha Hb Hdec Hfuel; [lia|].
  destruct n as [|n]; [destruct Hdec|].
  cbn [AlphAsc_loop]. unfold string_length.
  destruct (Z.ltb_spec (Z.of_nat i) (Z.of_nat (length (chars a)))) as [Hia|Hia];
    [destruct (Z.ltb_spec (Z.of_nat i) (Z.of_nat (length (chars b)))) as [Hib|Hib]|];
    cbn [andb].
  - destruct (lookup_lt_is_Some_2 (chars a) i) as [c1 Hc1]; [lia|].
    destruct (lookup_lt_is_Some_2 (chars b) i) as [c2 Hc2]; [lia|].
    unfold string_at. rewrite Nat2Z.id, Hc1, Hc2. cbn [bind].
    rewrite (drop_S _ _ _ Hc1), (drop_S _ _ _ Hc2) in *.
    unfold lt_verdict, char_lt, char_gt. cbn [lex_compare].
    destruct (Z.compare_spec (char_val c1) (char_val c2)) as [E|E|E].
    + rewrite E, Z.ltb_irrefl.
      apply char_val_inj in E as ->.
      simpl in Hdec. destruct Hdec as [Hne|Hdec]; [congruence|].
      destruct n as [|n]; [destruct Hdec|].
      replace (to_unsigned (Z.of_nat i + 1)) with (Z.of_nat (S i))
        by (unfold to_unsigned; rewrite Z.mod_small by lia; lia).
      apply (IH (S i) (S n)); try assumption; lia.
    + now apply Z.ltb_lt in E as ->.
    + assert ((char_val c1 <? char_val c2) = false) as -> by (apply Z.ltb_ge; lia).
      now apply Z.ltb_lt in E as ->.
  - assert (i = length (chars b)) as Hi by lia.
    rewrite (drop_ge (chars b)) by lia.
    destruct (drop i (chars a)) as [|c s] eqn:E.
    { apply (f_equal length) in E. rewrite length_drop in E. simpl in E. lia. }
    unfold lt_verdict. simpl. f_equal. apply Z.ltb_ge. lia.
  - assert (i = length (chars a)) as Hi by lia.
    rewrite (drop_ge (chars a)) by lia.
    destruct (drop i (chars b)) as [|c s] eqn:E; unfold lt_verdict; simpl; f_equal.
    + apply (f_equal length) in E. rewrite length_drop in E. simpl in E.
      apply Z.ltb_ge. lia.
    + apply (f_equal length) in E. rewrite length_drop in E. simpl in E.
      apply Z.ltb_lt. lia.
Qed.

(** Two strings that agree on their first 2^32 characters keep the cursor
    going round for ever. *)
Lemma AlphAsc_loop_diverges (a b : string) :
  ~ decided cursor_range (chars a) (chars b) ->
  forall (fuel i : nat), (i < cursor_range)%nat ->
    AlphAsc_loop fuel a b (Z.of_nat i) = OutOfFuel.
Proof.
  pose proof cursor_range_Z as Hrange.
  intros Hund fuel. induction fuel as [|fuel IH]; intros i Hi; [reflexivity|].
  destruct (undecided_lookup _ _ _ Hund i Hi) as (c & Hca & Hcb).
  pose proof (lookup_lt_Some _ _ _ Hca). pose proof (lookup_lt_Some _ _ _ Hcb).
  cbn [AlphAsc_loop]. unfold string_length.
  destruct (Z.ltb_spec (Z.of_nat i) (Z.of_nat (length (chars a)))); [|lia].
  destruct (Z.ltb_spec (Z.of_nat i) (Z.of_nat (length (chars b)))); [|lia].
  cbn [andb]. unfold string_at. rewrite Nat2Z.id, Hca, Hcb. cbn [bind].
  unfold char_lt, char_gt. rewrite Z.ltb_irrefl.
  set (k := to_unsigned (Z.of_nat i + 1)).
  assert (0 <= k < 4294967296) as Hk by (apply Z.mod_pos_bound; lia).
  rewrite <- (Z2Nat.id k) by lia. apply IH. lia.
Qed.

Lemma AlphDesc_loop_swap (fuel : nat) (a b : string) (i : Z) :
  AlphDesc_loop fuel a b i = AlphAsc_loop fuel b a i.
Proof.
  revert i; induction fuel as [|fuel IH]; intros i; [reflexivity|].
  cbn [AlphDesc_loop AlphAsc_loop]. rewrite andb_comm.
  destruct ((i <? string_length b) && (i <? string_length a)); [|reflexivity].
  unfold string_at.
  destruct (chars a !! Z.to_nat i) as [c1|], (chars b !! Z.to_nat i) as [c2|];
    cbn [bind]; try reflexivity.
  change (char_gt c1 c2) with (char_lt c2 c1).
  change (char_gt c2 c1) with (char_lt c1 c2).
  now rewrite IH.
Qed.

Lemma cursor_fuel_swap (a b : string) : cursor_fuel a b = cursor_fuel b a.
Proof. unfold cursor_fuel. now rewrite (Z.min_comm (string_length a)). Qed.

Lemma AlphDesc_swap (a b : string) :
  IsFirstAboveSecond AlphDescStrComp a b = IsFirstAboveSecond AlphAscStrComp b a.
Proof.
  cbn [IsFirstAboveSecond AlphDescStrComp AlphAscStrComp].
  now rewrite AlphDesc_loop_swap, cursor_fuel_swap.
Qed.

(** What the three comparers return. *)

Lemma AlphAsc_answers (a b : string) :
  decided cursor_range (chars a) (chars b) ->
  IsFirstAboveSecond AlphAscStrComp a b = Done (lt_verdict (chars a) (chars b)).
Proof.
  pose proof cursor_range_Z as Hrange. intros Hdec.
  cbn [IsFirstAboveSecond AlphAscStrComp].
  pose proof (AlphAsc_loop_exact a b (cursor_fuel a b) 0 cursor_range) as H.
  rewrite !drop_0 in H. apply H.
  - apply Nat.add_0_l.
  - lia.
  - lia.
  - assumption.
  - unfold cursor_fuel, string_length. lia.
Qed.

Lemma AlphAsc_silent (a b : string) :
  ~ decided cursor_range (chars a) (chars b) ->
  IsFirstAboveSecond AlphAscStrComp a b = OutOfFuel.
Proof.
  pose proof cursor_range_Z as Hrange. intros Hund.
  cbn [IsFirstAboveSecond AlphAscStrComp]. change 0 with (Z.of_nat 0).
  apply AlphAsc_loop_diverges; [assumption|lia].
Qed.

Lemma AlphDesc_answers (a b : string) :
  decided cursor_range (chars a) (chars b) ->
  IsFirstAboveSecond AlphDescStrComp a b = Done (gt_verdict (chars a) (chars b)).
Proof.
  intros Hdec. rewrite AlphDesc_swap, AlphAsc_answers by now apply decided_sym.
  unfold lt_verdict, gt_verdict. rewrite (lex_compare_antisym (chars a)).
  now destruct (lex_compare (chars a) (chars b)).
Qed.

Lemma AlphDesc_silent (a b : string) :
  ~ decided cursor_range (chars a) (chars b) ->
  IsFirstAboveSecond AlphDescStrComp a b = OutOfFuel.
Proof.
  intros Hund. rewrite AlphDesc_swap. apply AlphAsc_silent.
  intros H. now apply Hund, decided_sym.
Qed.

(** The fuel of the two alphabetical comparers is never what stops them:
    with any larger amount their loops do the same. *)
Lemma Alph_loops_more_fuel (a b : string) (fuel : nat) :
  (cursor_fuel a b <= fuel)%nat ->
  AlphAsc_loop fuel a b 0 = IsFirstAboveSecond AlphAscStrComp a b
  /\ AlphDesc_loop fuel a b 0 = IsFirstAboveSecond AlphDescStrComp a b.
Proof.
  pose proof cursor_range_Z as Hrange. intros Hfuel.
  assert (forall x y : string, (cursor_fuel x y <= fuel)%nat ->
            AlphAsc_loop fuel x y 0 = IsFirstAboveSecond AlphAscStrComp x y) as Hasc.
  { intros x y Hxy.
    destruct (decided_dec cursor_range (chars x) (chars y)) as [Hdec|Hund].
    - rewrite AlphAsc_answers by assumption.
      pose proof (AlphAsc_loop_exact x y fuel 0 cursor_range) as H.
      rewrite !drop_0 in H. apply H.
      + apply Nat.add_0_l.
      + lia.
      + lia.
      + assumption.
      + unfold cursor_fuel, string_length in Hxy. lia.
    - rewrite AlphAsc_silent by assumption. change 0 with (Z.of_nat 0).
      apply AlphAsc_loop_diverges; [assumption|lia]. }
  split; [now apply Hasc|].
  rewrite AlphDesc_loop_swap, AlphDesc_swap. apply Hasc.
  now rewrite cursor_fuel_swap.
Qed.

Lemma LastLetterAsc_loop_lex (r1 r2 : list ascii) :
  LastLetterAsc_loop r1 r2 = le_verdict r1 r2.
Proof.
  unfold le_verdict.
  revert r2; induction r1 as [|c1 r1 IH]; intros [|c2 r2]; simpl; auto.
  unfold char_ne, char_lt.
  destruct (Z.compare_spec (char_val c1) (char_val c2)) as [E|E|E].
  - rewrite E, Z.eqb_refl. simpl. apply IH.
  - assert ((char_val c1 =? char_val c2) = false) as -> by (apply Z.eqb_neq; lia).
    simpl. now apply Z.ltb_lt.
  - assert ((char_val c1 =? char_val c2) = false) as -> by (apply Z.eqb_neq; lia).
    simpl. apply Z.ltb_ge. lia.
Qed.

Lemma LastLetterAsc_answers (a b : string) :
  IsFirstAboveSecond LastLetterAscStrComp a b
  = Done (le_verdict (rev (chars a)) (rev (chars b))).
Proof. cbn [IsFirstAboveSecond LastLetterAscStrComp]. now rewrite LastLetterAsc_loop_lex. Qed.

(** ** The order each policy sorts by *)

(** The comparer [MergeSortWrapper] creates for a selector. *)
Definition comparer (P : ESortType) : IStringComparer := snd (select_comparer P).

(** [sort_order P a b]: [a] may stand before [b] in a list sorted under
    policy [P]; unknown selectors sort as [AlphAsc]. *)
Definition sort_order (P : ESortType) (a b : string) : Prop :=
  match P with
  | 1 => lex_le (chars b) (chars a)
  | 2 => lex_le (rev (chars a)) (rev (chars b))
  | _ => lex_le (chars a) (chars b)
  end.

(** What the comparer of policy [P] answers when it returns. *)
Definition verdict (P : ESortType) (a b : string) : bool :=
  match P with
  | 1 => gt_verdict (chars a) (chars b)
  | 2 => le_verdict (rev (chars a)) (rev (chars b))
  | _ => lt_verdict (chars a) (chars b)
  end.

(** When it returns: always under [LastLetterAsc]; under the alphabetical
    policies, when the two strings do not agree on 2^32 characters. *)
Definition answers (P : ESortType) (a b : string) : Prop :=
  match P with
  | 2 => True
  | _ => decided cursor_range (chars a) (chars b)
  end.

Definition short (s : string) : Prop := string_length s < 4294967296.

Lemma policy_cases (P : ESortType) :
  (P = 1 /\ comparer P = AlphDescStrComp
   /\ sort_order P = (fun a b => lex_le (chars b) (chars a))
   /\ verdict P = (fun a b => gt_verdict (chars a) (chars b))
   /\ answers P = (fun a b => decided cursor_range (chars a) (chars b)))
  \/ (P = 2 /\ comparer P = LastLetterAscStrComp
      /\ sort_order P = (fun a b => lex_le (rev (chars a)) (rev (chars b)))
      /\ verdict P = (fun a b => le_verdict (rev (chars a)) (rev (chars b)))
      /\ answers P = (fun a b => True))
  \/ (P <> 1 /\ P <> 2 /\ comparer P = AlphAscStrComp
      /\ sort_order P = (fun a b => lex_le (chars a) (chars b))
      /\ verdict P = (fun a b => lt_verdict (chars a) (chars b))
      /\ answers P = (fun a b => decided cursor_range (chars a) (chars b))).
Proof.
  destruct P as [|[p|p|]|p]; try destruct p as [p|p|];
    cbv beta iota delta [comparer select_comparer snd sort_order verdict answers];
    first [ left; repeat split; reflexivity
          | right; left; repeat split; reflexivity
          | right; right; repeat split; first [reflexivity | discriminate] ].
Qed.

Lemma comparer_answers (P : ESortType) (a b : string) :
  answers P a b -> IsFirstAboveSecond (comparer P) a b = Done (verdict P a b).
Proof.
  destruct (policy_cases P)
    as [(_ & -> & _ & -> & ->)|[(_ & -> & _ & -> & ->)|(_ & _ & -> & _ & -> & ->)]];
    intros H.
  - now apply AlphDesc_answers.
  - apply LastLetterAsc_answers.
  - now apply AlphAsc_answers.
Qed.

Lemma comparer_silent (P : ESortType) (a b : string) :
  ~ answers P a b -> IsFirstAboveSecond (comparer P) a b = OutOfFuel.
Proof.
  destruct (policy_cases P)
    as [(_ & -> & _ & _ & ->)|[(_ & -> & _ & _ & ->)|(_ & _ & -> & _ & _ & ->)]];
    intros H.
  - now apply AlphDesc_silent.
  - tauto.
  - now apply AlphAsc_silent.
Qed.

Lemma answers_dec (P : ESortType) (a b : string) : answers P a b \/ ~ answers P a b.
Proof.
  destruct (policy_cases P)
    as [(_ & _ & _ & _ & ->)|[(_ & _ & _ & _ & ->)|(_ & _ & _ & _ & _ & ->)]];
    auto using decided_dec.
Qed.

Lemma answers_sym (P : ESortType) (a b : string) : answers P a b -> answers P b a.
Proof.
  destruct (policy_cases P)
    as [(_ & _ & _ & _ & ->)|[(_ & _ & _ & _ & ->)|(_ & _ & _ & _ & _ & ->)]];
    auto using decided_sym.
Qed.

Lemma answers_short (P : ESortType) (a b : string) :
  short a \/ short b -> answers P a b.
Proof.
  pose proof cursor_range_Z as Hrange. unfold short, string_length.
  destruct (policy_cases P)
    as [(_ & _ & _ & _ & ->)|[(_ & _ & _ & _ & ->)|(_ & _ & _ & _ & _ & ->)]];
    auto; (intros [H|H]; [|apply decided_sym]; apply decided_short; lia).
Qed.

Lemma comparer_returns (P : ESortType) (a b : string) :
  returns (IsFirstAboveSecond (comparer P) a b) <-> answers P a b.
Proof.
  split.
  - intros [r Hr]. destruct (answers_dec P a b) as [H|H]; [assumption|].
    rewrite comparer_silent in Hr by assumption. discriminate.
  - intros H. rewrite comparer_answers by assumption. now eexists.
Qed.

Lemma comparer_Done (P : ESortType) (a b : string) (r : bool) :
  IsFirstAboveSecond (comparer P) a b = Done r -> answers P a b /\ verdict P a b = r.
Proof.
  intros Hr. assert (answers P a b) as H by (apply comparer_returns; eexists; exact Hr).
  split; [assumption|]. rewrite comparer_answers in Hr by assumption. congruence.
Qed.

Global Instance sort_order_trans (P : ESortType) : Transitive (sort_order P).
Proof.
  intros a b c.
  destruct (policy_cases P)
    as [(_ & _ & -> & _)|[(_ & _ & -> & _)|(_ & _ & _ & -> & _)]];
    eauto using lex_le_trans.
Qed.

Global Instance sort_order_antisym (P : ESortType) : AntiSymm (=) (sort_order P).
Proof.
  intros a b.
  destruct (policy_cases P)
    as [(_ & _ & -> & _)|[(_ & _ & -> & _)|(_ & _ & _ & -> & _)]]; intros H1 H2.
  - apply chars_inj. now apply lex_le_antisym.
  - apply rev_chars_inj. now apply lex_le_antisym.
  - apply chars_inj. now apply lex_le_antisym.
Qed.

Lemma verdict_order (P : ESortType) (a b : string) :
  (verdict P a b = true -> sort_order P a b)
  /\ (verdict P a b = false -> sort_order P b a).
Proof.
  destruct (policy_cases P)
    as [(_ & _ & -> & -> & _)|[(_ & _ & -> & -> & _)|(_ & _ & _ & -> & -> & _)]];
    unfold gt_verdict, le_verdict, lt_verdict, lex_le.
  - rewrite (lex_compare_antisym (chars a)).
    destruct (lex_compare (chars a) (chars b)); simpl; split; congruence.
  - rewrite (lex_compare_antisym (rev (chars a))).
    destruct (lex_compare (rev (chars a)) (rev (chars b))); simpl; split; congruence.
  - rewrite (lex_compare_antisym (chars a)).
    destruct (lex_compare (chars a) (chars b)); simpl; split; congruence.
Qed.

(** In a list sorted under policy [P] the comparer, when it returns, never
    puts the later of two neighbours above the earlier one, unless
    ([LastLetterAsc] only) the two are the same string. *)
Lemma verdict_neighbours (P : ESortType) (x y : string) :
  sort_order P x y -> (P = LastLetterAsc -> x <> y) -> verdict P y x = false.
Proof.
  destruct (policy_cases P)
    as [(_ & _ & -> & -> & _)|[(-> & _ & -> & -> & _)|(_ & HP & _ & -> & -> & _)]];
    unfold gt_verdict, le_verdict, lt_verdict, lex_le; intros Hle Hne.
  - destruct (lex_compare (chars y) (chars x)); congruence.
  - rewrite (lex_compare_antisym (rev (chars x))).
    destruct (lex_compare (rev (chars x)) (rev (chars y))) eqn:E; simpl; try congruence.
    apply lex_compare_eq, rev_chars_inj in E. now destruct Hne.
  - rewrite (lex_compare_antisym (chars x)).
    destruct (lex_compare (chars x) (chars y)); simpl; congruence.
Qed.

(** The order of policy [P] between strings the comparer answers on. *)
Definition answered_order (P : ESortType) (a b : string) : Prop :=
  sort_order P a b /\ answers P a b.

Global Instance answered_order_trans (P : ESortType) : Transitive (answered_order P).
Proof.
  intros a b c [Hab Aab] [Hbc Abc]. split; [now transitivity b|].
  destruct (answers_dec P a c) as [H|H]; [assumption|exfalso].
  revert Hab Hbc Aab Abc H.
  destruct (policy_cases P)
    as [(_ & _ & -> & _ & ->)|[(_ & _ & -> & _ & ->)|(_ & _ & _ & -> & _ & ->)]];
    intros Hab Hbc Aab Abc H.
  - assert (~ decided cursor_range (chars c) (chars a)) as H'
        by (intros D; now apply H, decided_sym).
    destruct (undecided_between _ _ _ _ Hbc Hab H') as [_ Hba].
    now apply Hba, decided_sym.
  - tauto.
  - destruct (undecided_between _ _ _ _ Hab Hbc H) as [Hn _]. tauto.
Qed.

(** ** Merging and sorting lists *)

Lemma bind_Done {A B : Type} (m : outcome A) (k : A -> outcome B) (b : B) :
  bind m k = Done b -> exists a : A, m = Done a /\ k a = Done b.
Proof. destruct m as [a| |]; simpl; try discriminate. eauto. Qed.

Lemma returns_Done {A : Type} (a : A) : returns (Done a).
Proof. now exists a. Qed.

(** What [merge] writes back, as a function of the two halves: the heads
    are compared, the upper head is taken when the comparer says it is
    above the lower one, the lower head otherwise, and what is left of
    either half is appended. *)
Fixpoint merge_lists (cmp : IStringComparer) (us : list string)
  : list string -> outcome (list string) :=
  fix merge_lower (ls : list string) : outcome (list string) :=
    match us, ls with
    | [], _ => Done ls
    | _, [] => Done us
    | u :: us', l :: ls' =>
        let* above := IsFirstAboveSecond cmp u l in
        if above then let* m := merge_lists cmp us' ls in Done (u :: m)
        else let* m := merge_lower ls' in Done (l :: m)
    end.

(** What [MergeSort] does to a range, as a function of the range: a range
    of one cell is left alone, a longer one is cut after its middle cell,
    both parts are sorted and the results merged. *)
Fixpoint sort_list (fuel : nat) (cmp : IStringComparer) (X : list string)
  : outcome (list string) :=
  match fuel with
  | O => OutOfFuel
  | S fuel' =>
      if (1 <? length X)%nat then
        let half := S ((length X - 1) / 2) in
        let* upper := sort_list fuel' cmp (take half X) in
        let* lower := sort_list fuel' cmp (drop half X) in
        merge_lists cmp upper lower
      else Done X
  end.

(** A relation [R] fits a comparer when the comparer's answer, either way,
    tells how [R] orders the two strings. *)
Definition fits (R : relation string) (cmp : IStringComparer) : Prop :=
  forall a b : string,
    (IsFirstAboveSecond cmp a b = Done true -> R a b)
    /\ (IsFirstAboveSecond cmp a b = Done false -> R b a).

Section merge_lists.
Context (cmp : IStringComparer).

Lemma merge_lists_nil_l ls : merge_lists cmp [] ls = Done ls.
Proof. now destruct ls. Qed.

Lemma merge_lists_nil_r us : merge_lists cmp us [] = Done us.
Proof. now destruct us. Qed.

Lemma merge_lists_cons u us l ls :
  merge_lists cmp (u :: us) (l :: ls) =
  let* above := IsFirstAboveSecond cmp u l in
  if above then let* m := merge_lists cmp us (l :: ls) in Done (u :: m)
  else let* m := merge_lists cmp (u :: us) ls in Done (l :: m).
Proof. reflexivity. Qed.

(** The cases of a merge that returns. *)
Lemma merge_lists_Done u us l ls m :
  merge_lists cmp (u :: us) (l :: ls) = Done m ->
  (IsFirstAboveSecond cmp u l = Done true
   /\ exists m', merge_lists cmp us (l :: ls) = Done m' /\ m = u :: m')
  \/ (IsFirstAboveSecond cmp u l = Done false
      /\ exists m', merge_lists cmp (u :: us) ls = Done m' /\ m = l :: m').
Proof.
  rewrite merge_lists_cons. intros H.
  apply bind_Done in H as ([|] & Habove & H);
    apply bind_Done in H as (m' & Hm' & [= <-]); eauto.
Qed.

Lemma merge_lists_Permutation us ls m :
  merge_lists cmp us ls = Done m -> m ≡ₚ us ++ ls.
Proof.
  revert ls m; induction us as [|u us IHu]; intros ls.
  { intros m. rewrite merge_lists_nil_l. now intros [= <-]. }
  induction ls as [|l ls IHl]; intros m.
  { rewrite merge_lists_nil_r, app_nil_r. now intros [= <-]. }
  intros H. apply merge_lists_Done in H as [(_ & m' & Hm' & ->)|(_ & m' & Hm' & ->)].
  - simpl. now rewrite (IHu _ _ Hm').
  - rewrite (IHl _ Hm'). now rewrite <- Permutation_middle.
Qed.

Lemma merge_lists_returns us ls :
  (forall u l, u ∈ us -> l ∈ ls -> returns (IsFirstAboveSecond cmp u l)) ->
  returns (merge_lists cmp us ls).
Proof.
  revert ls; induction us as [|u us IHu]; intros ls.
  { intros _. rewrite merge_lists_nil_l. apply returns_Done. }
  induction ls as [|l ls IHl]; intros Hcmp.
  { rewrite merge_lists_nil_r. apply returns_Done. }
  rewrite merge_lists_cons.
  destruct (Hcmp u l) as [[|] ->]; [left|left| |]; cbn [bind].
  - destruct (IHu (l :: ls)) as [m ->].
    + intros u' l' Hu' Hl'. apply Hcmp; [now right|assumption].
    + apply returns_Done.
  - destruct IHl as [m ->].
    + intros u' l' Hu' Hl'. apply Hcmp; [assumption|now right].
    + apply returns_Done.
Qed.

Context (R : relation string) (HR : fits R cmp).

Lemma merge_lists_HdRel x us ls m :
  merge_lists cmp us ls = Done m ->
  HdRel R x us -> HdRel R x ls -> HdRel R x m.
Proof.
  destruct us as [|u us], ls as [|l ls].
  - now intros [= <-].
  - now intros [= <-].
  - now intros [= <-].
  - intros H Hu Hl.
    apply merge_lists_Done in H as [(_ & m' & _ & ->)|(_ & m' & _ & ->)];
      constructor; [now inversion Hu|now inversion Hl].
Qed.

Lemma merge_lists_Sorted us ls m :
  merge_lists cmp us ls = Done m ->
  Sorted R us -> Sorted R ls -> Sorted R m.
Proof.
  revert ls m; induction us as [|u us IHu]; intros ls.
  { intros m. rewrite merge_lists_nil_l. now intros [= <-]. }
  induction ls as [|l ls IHl]; intros m.
  { rewrite merge_lists_nil_r. now intros [= <-]. }
  intros H Hus Hls.
  apply merge_lists_Done in H as [(Hul & m' & Hm' & ->)|(Hul & m' & Hm' & ->)].
  - apply Sorted_inv in Hus as [Hus Hu]. constructor; [eauto|].
    eapply merge_lists_HdRel; [eassumption|assumption|].
    constructor. now apply (HR u l).
  - apply Sorted_inv in Hls as [Hls Hl]. constructor; [eauto|].
    eapply merge_lists_HdRel; [eassumption| |assumption].
    constructor. now apply (HR u l).
Qed.
End merge_lists.

Section sort_list.
Context (cmp : IStringComparer).

Lemma sort_list_S fuel X :
  sort_list (S fuel) cmp X =
  if (1 <? length X)%nat then
    let half := S ((length X - 1) / 2) in
    let* upper := sort_list fuel cmp (take half X) in
    let* lower := sort_list fuel cmp (drop half X) in
    merge_lists cmp upper lower
  else Done X.
Proof. reflexivity. Qed.

(** The cases of a sort that returns. *)
Lemma sort_list_Done fuel X out :
  sort_list (S fuel) cmp X = Done out ->
  ((length X <= 1)%nat /\ out = X)
  \/ ((1 < length X)%nat
      /\ exists upper lower,
           sort_list fuel cmp (take (S ((length X - 1) / 2)) X) = Done upper
           /\ sort_list fuel cmp (drop (S ((length X - 1) / 2)) X) = Done lower
           /\ merge_lists cmp upper lower = Done out).
Proof.
  rewrite sort_list_S. destruct (Nat.ltb_spec 1 (length X)) as [Hlt|Hge].
  - intros H. right. split; [assumption|]. cbv zeta in H.
    apply bind_Done in H as (upper & Hu & H).
    apply bind_Done in H as (lower & Hl & H). eauto.
  - intros [= <-]. now left.
Qed.

Lemma sort_list_Permutation fuel X out :
  sort_list fuel cmp X = Done out -> out ≡ₚ X.
Proof.
  revert X out; induction fuel as [|fuel IH]; intros X out; [discriminate|].
  intros H. apply sort_list_Done in H
    as [(_ & ->)|(_ & upper & lower & Hu & Hl & Hm)]; [reflexivity|].
  rewrite (merge_lists_Permutation _ _ _ _ Hm), (IH _ _ Hu), (IH _ _ Hl).
  now rewrite take_drop.
Qed.

Lemma sort_list_length fuel X out :
  sort_list fuel cmp X = Done out -> length out = length X.
Proof. intros H. now apply Permutation_length, (sort_list_Permutation fuel). Qed.

Lemma Sorted_short (R : relation string) (l : list string) :
  (length l <= 1)%nat -> Sorted R l.
Proof. destruct l as [|x [|y l]]; simpl; try lia; repeat constructor. Qed.

Lemma sort_list_Sorted (R : relation string) fuel X out :
  fits R cmp -> sort_list fuel cmp X = Done out -> Sorted R out.
Proof.
  intros HR. revert X out; induction fuel as [|fuel IH]; intros X out; [discriminate|].
  intros H. apply sort_list_Done in H
    as [(Hlen & ->)|(_ & upper & lower & Hu & Hl & Hm)].
  - now apply Sorted_short.
  - eapply merge_lists_Sorted; eauto.
Qed.

Lemma half_bounds (n : nat) :
  (1 < n)%nat -> (0 < S ((n - 1) / 2) < n)%nat.
Proof.
  intros Hn. pose proof (Nat.div_mod_eq (n - 1) 2).
  pose proof (Nat.mod_upper_bound (n - 1) 2). lia.
Qed.

(** The sort returns when the comparer returns on every cell paired with
    a later one. *)
Lemma sort_list_returns fuel X :
  (length X <= fuel)%nat -> (0 < fuel)%nat ->
  StronglySorted (fun a b => returns (IsFirstAboveSecond cmp a b)) X ->
  returns (sort_list fuel cmp X).
Proof.
  revert X; induction fuel as [|fuel IH]; intros X Hlen Hpos Hcmp; [lia|].
  rewrite sort_list_S. destruct (Nat.ltb_spec 1 (length X)) as [Hlt|Hge];
    [|apply returns_Done].
  cbv zeta. pose proof (half_bounds _ Hlt) as Hhalf.
  set (half := S ((length X - 1) / 2)) in *.
  rewrite <- (take_drop half X) in Hcmp.
  apply StronglySorted_app in Hcmp as (Hcross & Hup & Hlow).
  destruct (IH (take half X)) as [upper Hu]; [rewrite length_take; lia|lia|assumption|].
  destruct (IH (drop half X)) as [lower Hl]; [rewrite length_drop; lia|lia|assumption|].
  rewrite Hu, Hl. cbn [bind].
  apply merge_lists_returns. intros u l Hu' Hl'. apply Hcross.
  - now rewrite <- (sort_list_Permutation _ _ _ Hu).
  - now rewrite <- (sort_list_Permutation _ _ _ Hl).
Qed.
End sort_list.

(** ** Reads and writes inside a vector *)

Lemma vec_at_lookup (v : vec) (i : nat) (x : string) :
  v !! i = Some x -> vec_at v (Z.of_nat i) = Done x.
Proof.
  intros H. unfold vec_at.
  destruct (Z.ltb_spec (Z.of_nat i) 0); [lia|]. now rewrite Nat2Z.id, H.
Qed.

Lemma vec_assign_lt (v : vec) (i : nat) (x : string) :
  (i < length v)%nat -> vec_assign v (Z.of_nat i) x = Done (<[i := x]> v).
Proof.
  intros H. unfold vec_assign, vec_size.
  destruct (Z.leb_spec 0 (Z.of_nat i)); [|lia].
  destruct (Z.ltb_spec (Z.of_nat i) (Z.of_nat (length v))); [|lia].
  simpl. now rewrite Nat2Z.id.
Qed.

Lemma vec_new_spec (n : nat) : vec_new (Z.of_nat n) = Done (replicate n EmptyString).
Proof.
  unfold vec_new. destruct (Z.ltb_spec (Z.of_nat n) 0); [lia|]. now rewrite Nat2Z.id.
Qed.

Lemma take_S_insert (v : vec) (k : nat) (x : string) :
  (k < length v)%nat -> take (S k) (<[k := x]> v) = take k v ++ [x].
Proof.
  intros H. rewrite (take_S_r _ _ x) by (apply list_lookup_insert_eq; lia).
  now rewrite take_insert_ge by lia.
Qed.

(** Goals about the lengths of pieces of a vector. *)
Ltac len_solve :=
  repeat first [ rewrite length_app | rewrite length_take
               | rewrite length_drop | rewrite length_insert ];
  lia.

Lemma loop_fuel_of_nat (n : nat) : loop_fuel (Z.of_nat n) = S n.
Proof. unfold loop_fuel. now rewrite Nat2Z.id. Qed.

(** ** The loops of [merge] *)

Lemma fill_S fuel originVec base size arr i :
  fill (S fuel) originVec base size arr i =
  if i <? size then
    let* x := vec_at originVec (int_add base i) in
    let* arr' := vec_assign arr i x in
    fill fuel originVec base size arr' (int_add i 1)
  else Done arr.
Proof. reflexivity. Qed.

Lemma merge_rest_S fuel arr size originVec i k :
  merge_rest (S fuel) arr size originVec i k =
  if i <? size then
    let* x := vec_at arr i in
    let* originVec' := vec_assign originVec k x in
    merge_rest fuel arr size originVec' (int_add i 1) (int_add k 1)
  else Done (originVec, i, k).
Proof. reflexivity. Qed.

Lemma merge_both_S fuel cmp upArray lowArray upperSize lowerSize originVec i j k :
  merge_both (S fuel) cmp upArray lowArray upperSize lowerSize originVec i j k =
  if (i <? upperSize) && (j <? lowerSize) then
    let* u := vec_at upArray i in
    let* l := vec_at lowArray j in
    let* above := IsFirstAboveSecond cmp u l in
    if above then
      let* originVec' := vec_assign originVec k u in
      merge_both fuel cmp upArray lowArray upperSize lowerSize
                 originVec' (int_add i 1) j (int_add k 1)
    else
      let* originVec' := vec_assign originVec k l in
      merge_both fuel cmp upArray lowArray upperSize lowerSize
                 originVec' i (int_add j 1) (int_add k 1)
  else Done (originVec, i, j, k).
Proof. reflexivity. Qed.

Lemma int_succ_of_nat (n : nat) :
  Z.of_nat n < INT_MAX -> int_add (Z.of_nat n) 1 = Z.of_nat (S n).
Proof. intros H. unfold INT_MAX in H. int_exact. lia. Qed.

(** A copy loop started at [i] leaves the first [i] cells of [arr] alone
    and fills the others with the cells of the source range [X]. *)
Lemma fill_spec (A X D : vec) :
  Z.of_nat (length A + length X) <= INT_MAX + 1 ->
  Z.of_nat (length X) <= INT_MAX ->
  forall (fuel i : nat) (arr : vec),
    length arr = length X -> (i <= length X)%nat -> (length X - i < fuel)%nat ->
    fill fuel (A ++ X ++ D) (Z.of_nat (length A)) (Z.of_nat (length X)) arr (Z.of_nat i)
    = Done (take i arr ++ drop i X).
Proof.
  intros Hmax HX fuel.
  induction fuel as [|fuel IH]; intros i arr Harr Hi Hfuel; [lia|].
  rewrite fill_S.
  destruct (Z.ltb_spec (Z.of_nat i) (Z.of_nat (length X))) as [Hlt|Hge].
  - destruct (lookup_lt_is_Some_2 X i) as [x Hx]; [lia|].
    replace (int_add (Z.of_nat (length A)) (Z.of_nat i))
      with (Z.of_nat (length A + i)) by (unfold INT_MAX in Hmax; int_exact; lia).
    rewrite (vec_at_lookup _ _ x).
    2:{ rewrite lookup_app_r by lia. rewrite lookup_app_l by lia.
        now replace (length A + i - length A)%nat with i by lia. }
    cbn [bind]. rewrite vec_assign_lt by lia. cbn [bind].
    rewrite int_succ_of_nat by lia.
    rewrite IH; [|now rewrite length_insert|lia|lia].
    f_equal. rewrite take_S_insert by lia.
    rewrite <- app_assoc. simpl. now rewrite (drop_S _ _ _ Hx).
  - assert (i = length X) as -> by lia.
    rewrite take_ge by lia. now rewrite drop_all, app_nil_r.
Qed.

(** A drain loop started at [(i, k)] writes what is left of [arr] from
    cell [k] of the vector on.  The counter [k] is only looked at while
    something is left to write, so its last increment may leave [int]. *)
Lemma merge_rest_spec (arr : vec) :
  Z.of_nat (length arr) <= INT_MAX ->
  forall (fuel i k : nat) (kz : Z) (v : vec),
    (i <= length arr)%nat -> (k + (length arr - i) <= length v)%nat ->
    Z.of_nat (k + (length arr - i)) <= INT_MAX + 1 ->
    ((i < length arr)%nat -> kz = Z.of_nat k) ->
    (length arr - i < fuel)%nat ->
    exists k' : Z,
      merge_rest fuel arr (Z.of_nat (length arr)) v (Z.of_nat i) kz
      = Done (take k v ++ drop i arr ++ drop (k + (length arr - i)) v,
              Z.of_nat (length arr), k')
      /\ (i = length arr -> k' = kz).
Proof.
  intros Harr fuel.
  induction fuel as [|fuel IH]; intros i k kz v Hi Hk Hmax Hkz Hfuel; [lia|].
  rewrite merge_rest_S.
  destruct (Z.ltb_spec (Z.of_nat i) (Z.of_nat (length arr))) as [Hlt|Hge].
  - destruct (lookup_lt_is_Some_2 arr i) as [x Hx]; [lia|].
    rewrite Hkz by lia.
    rewrite (vec_at_lookup _ _ x Hx). cbn [bind].
    rewrite vec_assign_lt by lia. cbn [bind].
    rewrite (int_succ_of_nat i) by lia.
    destruct (IH (S i) (S k) (int_add (Z.of_nat k) 1) (<[k:=x]> v))
      as (k' & -> & _); [lia|len_solve|lia| |lia|].
    { intros Hlt'. apply int_succ_of_nat. lia. }
    exists k'. split; [|lia].
    replace (S k + (length arr - S i))%nat with (k + (length arr - i))%nat by lia.
    do 3 f_equal. rewrite take_S_insert by lia.
    rewrite drop_insert_lt by lia.
    rewrite <- app_assoc. simpl. now rewrite (drop_S _ _ _ Hx).
  - assert (i = length arr) as -> by lia.
    exists kz. split; [|reflexivity].
    rewrite drop_all. replace (k + (length arr - length arr))%nat with k by lia.
    simpl. now rewrite take_drop.
Qed.

(** The three [while] loops of [merge], one after the other. *)
Definition write_back (fuel fuelU fuelL : nat) (cmp : IStringComparer)
    (upArray lowArray : vec) (originVec : vec) (i j k : Z) : outcome vec :=
  let upperSize := Z.of_nat (length upArray) in
  let lowerSize := Z.of_nat (length lowArray) in
  let* '(originVec, i, j, k) :=
    merge_both fuel cmp upArray lowArray upperSize lowerSize originVec i j k in
  let* '(originVec, _, k) := merge_rest fuelU upArray upperSize originVec i k in
  let* '(originVec, _, _) := merge_rest fuelL lowArray lowerSize originVec j k in
  Done originVec.

Section merge_correct.
Context (cmp : IStringComparer).

(** The loops write the merge of what is left of the two halves, and stop
    where the comparer does not answer. *)
Lemma write_back_spec (up low : vec) (fuelU fuelL : nat) :
  Z.of_nat (length up) <= INT_MAX -> Z.of_nat (length low) <= INT_MAX ->
  (length up < fuelU)%nat -> (length low < fuelL)%nat ->
  forall (fuel i j k : nat) (v : vec),
    (i <= length up)%nat -> (j <= length low)%nat ->
    (k + (length up - i) + (length low - j) <= length v)%nat ->
    Z.of_nat (k + (length up - i) + (length low - j)) <= INT_MAX + 1 ->
    (0 < (length up - i) + (length low - j))%nat ->
    ((length up - i) + (length low - j) < fuel)%nat ->
    write_back fuel fuelU fuelL cmp up low v (Z.of_nat i) (Z.of_nat j) (Z.of_nat k)
    = let* m := merge_lists cmp (drop i up) (drop j low) in
      Done (take k v ++ m ++ drop (k + (length up - i) + (length low - j)) v).
Proof.
  intros HU HL HfU HfL fuel.
  induction fuel as [|fuel IH]; intros i j k v Hi Hj Hk Hmax Hpos Hfuel; [lia|].
  unfold write_back in *. rewrite merge_both_S.
  destruct (Z.ltb_spec (Z.of_nat i) (Z.of_nat (length up))) as [Hlti|Hgei];
    [destruct (Z.ltb_spec (Z.of_nat j) (Z.of_nat (length low))) as [Hltj|Hgej]|];
    cbn [andb].
  - (* both halves have a head *)
    destruct (lookup_lt_is_Some_2 up i) as [u Hu]; [lia|].
    destruct (lookup_lt_is_Some_2 low j) as [l Hl]; [lia|].
    rewrite (vec_at_lookup _ _ u Hu), (vec_at_lookup _ _ l Hl). cbn [bind].
    rewrite (drop_S _ _ _ Hu), (drop_S _ _ _ Hl), merge_lists_cons.
    destruct (IsFirstAboveSecond cmp u l) as [[|]| |]; cbn [bind];
      [| |reflexivity|reflexivity].
    + rewrite vec_assign_lt by lia. cbn [bind].
      rewrite !int_succ_of_nat by lia.
      rewrite IH; [|lia|lia|len_solve|lia|lia|lia].
      rewrite (drop_S _ _ _ Hl).
      destruct (merge_lists cmp (drop (S i) up) (l :: drop (S j) low)) as [m| |];
        cbn [bind]; [|reflexivity|reflexivity].
      rewrite take_S_insert by lia. rewrite drop_insert_lt by lia.
      rewrite <- app_assoc. simpl.
      repeat f_equal. lia.
    + rewrite vec_assign_lt by lia. cbn [bind].
      rewrite !int_succ_of_nat by lia.
      rewrite IH; [|lia|lia|len_solve|lia|lia|lia].
      rewrite (drop_S _ _ _ Hu).
      destruct (merge_lists cmp (u :: drop (S i) up) (drop (S j) low)) as [m| |];
        cbn [bind]; [|reflexivity|reflexivity].
      rewrite take_S_insert by lia. rewrite drop_insert_lt by lia.
      rewrite <- app_assoc. simpl.
      repeat f_equal. lia.
  - (* the lower half is used up: the upper one is drained *)
    assert (j = length low) as -> by lia.
    cbn [bind].
    destruct (merge_rest_spec up HU fuelU i k (Z.of_nat k) v)
      as (k1 & -> & _); [lia|lia|lia|reflexivity|lia|].
    cbn [bind].
    destruct (merge_rest_spec low HL fuelL (length low) (k + (length up - i)) k1
                (take k v ++ drop i up ++ drop (k + (length up - i)) v))
      as (k2 & -> & _); [lia|len_solve|lia|lia|lia|].
    cbn [bind]. rewrite drop_all, merge_lists_nil_r. cbn [bind]. simpl.
    rewrite !Nat.sub_diag, !Nat.add_0_r.
    rewrite (app_assoc (take k v)), take_app_length' by len_solve.
    rewrite drop_app_length' by len_solve.
    now rewrite <- app_assoc.
  - (* the upper half is used up: the lower one is drained *)
    assert (i = length up) as -> by lia.
    cbn [bind].
    destruct (merge_rest_spec up HU fuelU (length up) k (Z.of_nat k) v)
      as (k1 & -> & Hk1); [lia|lia|lia|reflexivity|lia|].
    rewrite (Hk1 eq_refl). cbn [bind].
    destruct (merge_rest_spec low HL fuelL j (k + (length up - length up))
                (Z.of_nat k)
                (take k v ++ drop (length up) up
                   ++ drop (k + (length up - length up)) v))
      as (k2 & -> & _); [lia|len_solve|lia|intros _; f_equal; lia|lia|].
    cbn [bind]. rewrite drop_all, merge_lists_nil_l. cbn [bind]. simpl.
    rewrite !Nat.sub_diag, !Nat.add_0_r.
    rewrite take_app_length' by len_solve.
    rewrite drop_app_add' by len_solve.
    now rewrite drop_drop.
Qed.
End merge_correct.

Section sort_correct.
Context (cmp : IStringComparer).

(** [merge] on a vector cut as [A ++ B ++ C ++ D], with [B] the range
    [upper .. mid] and [C] the range [mid + 1 .. lower]. *)
Lemma merge_spec (A B C D : vec) (mid lower : nat) :
  (mid + 1 = length A + length B)%nat -> (0 < length B)%nat ->
  (lower = mid + length C)%nat -> (0 < length C)%nat ->
  Z.of_nat lower <= INT_MAX ->
  merge (A ++ B ++ C ++ D) (Z.of_nat (length A)) (Z.of_nat mid) (Z.of_nat lower) cmp
  = let* m := merge_lists cmp B C in Done (A ++ m ++ D).
Proof.
  intros Hmid HB Hlower HC Hmax. unfold merge.
  assert (INT_MAX = 2147483647) as Hint by reflexivity.
  replace (int_add (int_sub (Z.of_nat mid) (Z.of_nat (length A))) 1)
    with (Z.of_nat (length B)) by (int_exact; lia).
  replace (int_sub (Z.of_nat lower) (Z.of_nat mid))
    with (Z.of_nat (length C)) by (int_exact; lia).
  replace (int_add (Z.of_nat mid) 1)
    with (Z.of_nat (length (A ++ B))) by (rewrite length_app; int_exact; lia).
  rewrite !vec_new_spec. cbn [bind].
  rewrite !loop_fuel_of_nat.
  change 0 with (Z.of_nat 0).
  rewrite (fill_spec A B (C ++ D)); [|lia|lia|now rewrite length_replicate|lia|lia].
  cbn [bind]. rewrite take_0, drop_0, app_nil_l.
  rewrite (app_assoc A B) at 1.
  rewrite (fill_spec (A ++ B) C D);
    [|rewrite length_app; lia|lia|now rewrite length_replicate|lia|lia].
  cbn [bind]. rewrite take_0, drop_0, app_nil_l.
  replace (loop_fuel (Z.of_nat (length B) + Z.of_nat (length C)))
    with (S (length B + length C)) by (unfold loop_fuel; lia).
  pose proof (write_back_spec cmp B C (S (length B)) (S (length C))) as Hwb.
  unfold write_back in Hwb.
  rewrite Hwb; [|lia|lia|lia|lia|lia|lia|len_solve|lia|lia|lia].
  rewrite !drop_0, !Nat.sub_0_r.
  destruct (merge_lists cmp B C) as [m| |]; cbn [bind]; [|reflexivity|reflexivity].
  f_equal.
  rewrite take_app_length. do 2 f_equal.
  rewrite !app_assoc, <- !length_app. apply drop_app_length.
Qed.

(** [MergeSort] on a vector cut as [A ++ X ++ D], with [X] the range
    [upper .. lower]: the range is replaced by its sorted copy and nothing
    else changes. *)
Lemma MergeSort_rec_spec (fuel : nat) :
  forall (A X D : vec) (lower : nat),
    (lower + 1 = length A + length X)%nat -> (0 < length X)%nat ->
    Z.of_nat lower <= INT_MAX ->
    MergeSort_rec fuel (A ++ X ++ D) (Z.of_nat (length A)) (Z.of_nat lower) cmp
    = let* out := sort_list fuel cmp X in Done (A ++ out ++ D).
Proof.
  induction fuel as [|fuel IH]; intros A X D lower Hlower HX Hmax; [reflexivity|].
  assert (INT_MAX = 2147483647) as Hint by reflexivity.
  rewrite sort_list_S. cbn [MergeSort_rec].
  destruct (Z.ltb_spec (Z.of_nat (length A)) (Z.of_nat lower)) as [Hlt|Hge];
    destruct (Nat.ltb_spec 1 (length X)) as [Hlt'|Hge']; try lia;
    [|reflexivity].
  cbv zeta.
  pose proof (half_bounds _ Hlt') as Hhalf.
  set (half := ((length X - 1) / 2)%nat) in *.
  replace (int_add (Z.of_nat (length A))
             (int_div (int_sub (Z.of_nat lower) (Z.of_nat (length A))) 2))
    with (Z.of_nat (length A + half)).
  2:{ assert (Z.quot (Z.of_nat lower - Z.of_nat (length A)) 2 = Z.of_nat half) as Hq.
      { rewrite Z.quot_div_nonneg by lia.
        replace (Z.of_nat lower - Z.of_nat (length A))
          with (Z.of_nat (length X - 1)) by lia.
        unfold half. now rewrite Nat2Z.inj_div. }
      unfold int_add, int_div, int_sub.
      rewrite (to_int_small (Z.of_nat lower - Z.of_nat (length A)))
        by (unfold is_int, INT_MIN; lia).
      rewrite Hq.
      int_exact. lia. }
  set (mid := (length A + half)%nat).
  rewrite <- (take_drop (S half) X) at 1.
  set (B := take (S half) X). set (C := drop (S half) X).
  assert (length B = S half) as HlenB by (unfold B; len_solve).
  assert (length C = (length X - S half)%nat) as HlenC by (unfold C; len_solve).
  rewrite <- (app_assoc B C D).
  rewrite (IH A B (C ++ D) mid) by lia.
  destruct (sort_list fuel cmp B) as [out1| |] eqn:Hout1; cbn [bind];
    [|reflexivity|reflexivity].
  assert (length out1 = length B) as Hlen1 by now apply (sort_list_length cmp fuel).
  replace (int_add (Z.of_nat mid) 1) with (Z.of_nat (length (A ++ out1)))
    by (rewrite length_app; int_exact; lia).
  rewrite (app_assoc A out1).
  rewrite (IH (A ++ out1) C D lower); [|len_solve|lia|lia].
  destruct (sort_list fuel cmp C) as [out2| |] eqn:Hout2; cbn [bind];
    [|reflexivity|reflexivity].
  assert (length out2 = length C) as Hlen2 by now apply (sort_list_length cmp fuel).
  rewrite <- (app_assoc A out1).
  apply merge_spec; lia.
Qed.
End sort_correct.

(** ** [MergeSort] by indices, and [MergeSortWrapper] *)

Lemma MergeSort_outside (cmp : IStringComparer) (v : vec) (upper lower : Z) :
  lower <= upper -> MergeSort v upper lower cmp = Done v.
Proof.
  intros H. unfold MergeSort, loop_fuel. cbn [MergeSort_rec].
  destruct (Z.ltb_spec upper lower); [lia|reflexivity].
Qed.

Lemma MergeSort_range (cmp : IStringComparer) (v : vec) (upper lower : nat) :
  (upper <= lower < length v)%nat -> Z.of_nat lower <= INT_MAX ->
  MergeSort v (Z.of_nat upper) (Z.of_nat lower) cmp
  = let* out := sort_list (S lower - upper) cmp (take (S lower - upper) (drop upper v)) in
    Done (take upper v ++ out ++ drop (S lower) v).
Proof.
  intros Hrange Hmax.
  set (A := take upper v). set (X := take (S lower - upper) (drop upper v)).
  set (D := drop (S lower) v).
  assert (A ++ X ++ D = v) as Hv.
  { unfold A, X, D. rewrite <- (take_drop upper v) at 4. f_equal.
    rewrite <- (take_drop (S lower - upper) (drop upper v)) at 2. f_equal.
    rewrite drop_drop. f_equal. lia. }
  assert (length A = upper) as HA by (unfold A; len_solve).
  assert (length X = (S lower - upper)%nat) as HX by (unfold X; len_solve).
  unfold MergeSort.
  replace (loop_fuel (Z.of_nat lower - Z.of_nat upper)) with (S lower - upper)%nat
    by (unfold loop_fuel; lia).
  rewrite <- Hv at 1.
  replace (Z.of_nat upper) with (Z.of_nat (length A)) by now rewrite HA.
  apply MergeSort_rec_spec; lia.
Qed.

Lemma last_index_nil : last_index [] = -1.
Proof. reflexivity. Qed.

Lemma last_index_small (L : vec) :
  (0 < length L)%nat -> Z.of_nat (length L) <= INT_MAX + 1 ->
  last_index L = Z.of_nat (length L) - 1.
Proof.
  unfold last_index, vec_size, to_size_t, INT_MAX. intros Hpos Hmax.
  rewrite Z.mod_small by lia. apply to_int_small. unfold is_int, INT_MIN, INT_MAX. lia.
Qed.

Lemma last_index_bounds (L : vec) :
  last_index L <= INT_MAX /\ last_index L < Z.of_nat (length L).
Proof.
  unfold last_index, vec_size, to_size_t, to_int, INT_MAX.
  set (n := Z.of_nat (length L)). assert (0 <= n) by (unfold n; lia).
  Z.to_euclidean_division_equations. lia.
Qed.

Lemma last_index_length (L L' : vec) :
  length L = length L' -> last_index L = last_index L'.
Proof. unfold last_index, vec_size. now intros ->. Qed.

(** The number of leading cells [MergeSortWrapper] passes to [MergeSort]:
    all of them when [size() - 1] fits in [int]. *)
Definition sort_range (L : vec) : nat := Z.to_nat (last_index L + 1).

Lemma sort_range_le (L : vec) : (sort_range L <= length L)%nat.
Proof. unfold sort_range. pose proof (last_index_bounds L). lia. Qed.

Lemma sort_range_small (L : vec) :
  Z.of_nat (length L) <= INT_MAX + 1 -> sort_range L = length L.
Proof.
  intros H. unfold sort_range. destruct L as [|x L]; [reflexivity|].
  rewrite last_index_small by (simpl length in *; lia). lia.
Qed.

Lemma sort_range_length (L L' : vec) :
  length L = length L' -> sort_range L = sort_range L'.
Proof. unfold sort_range. intros H. now rewrite (last_index_length L L'). Qed.

(** The fuel [MergeSortWrapper] gives to [MergeSort]. *)
Definition sort_fuel (L : vec) : nat := loop_fuel (last_index L).

Lemma sort_fuel_enough (L : vec) : (0 < sort_fuel L /\ sort_range L <= sort_fuel L)%nat.
Proof. unfold sort_fuel, sort_range, loop_fuel. lia. Qed.

(** What [Sort] returns, for every list and selector. *)
Lemma Sort_spec (L : vec) (P : ESortType) :
  Sort L P
  = let* out := sort_list (sort_fuel L) (comparer P) (take (sort_range L) L) in
    Done (out ++ drop (sort_range L) L).
Proof.
  unfold Sort, MergeSortWrapper, comparer.
  destruct (select_comparer P) as [cerr cmp]. simpl snd in *.
  pose proof (last_index_bounds L) as [Hmax Hlt].
  destruct (Z.le_gt_cases (last_index L) 0) as [Hle|Hgt].
  - rewrite MergeSort_outside by lia.
    unfold sort_fuel, loop_fuel. rewrite sort_list_S.
    destruct (Nat.ltb_spec 1 (length (take (sort_range L) L))) as [H|H].
    + rewrite length_take in H. unfold sort_range in H. lia.
    + cbn [bind]. now rewrite take_drop.
  - rewrite <- (Z2Nat.id (last_index L)) at 1 by lia. change 0 with (Z.of_nat 0) at 1.
    rewrite MergeSort_range by lia.
    rewrite drop_0, Nat.sub_0_r.
    replace (S (Z.to_nat (last_index L))) with (sort_range L)
      by (unfold sort_range; lia).
    replace (sort_fuel L) with (sort_range L)
      by (unfold sort_fuel, loop_fuel, sort_range; lia).
    now destruct (sort_list (sort_range L) cmp (take (sort_range L) L)).
Qed.

Lemma Sorted_lookup_adjacent (R : relation string) (l : vec) (i : nat) (x y : string) :
  Sorted R l -> l !! i = Some x -> l !! S i = Some y -> R x y.
Proof.
  intros Hs. revert i. induction Hs as [|a l Hs IH Hhd]; intros i Hx Hy; [discriminate|].
  destruct i as [|i]; simpl in *.
  - injection Hx as ->. destruct Hhd as [|b l Hab]; [discriminate|].
    simpl in Hy. now injection Hy as ->.
  - eauto.
Qed.

(** Replacing the cells [upper .. lower] of a vector by as many others
    keeps its length and every other cell. *)
Lemma splice_frame (v out : vec) (upper lower : nat) :
  (upper <= lower < length v)%nat -> length out = (S lower - upper)%nat ->
  length (take upper v ++ out ++ drop (S lower) v) = length v
  /\ forall i : Z, i < Z.of_nat upper \/ Z.of_nat lower < i ->
       vec_at (take upper v ++ out ++ drop (S lower) v) i = vec_at v i.
Proof.
  intros Hrange Hout. split; [len_solve|].
  intros i Hi. unfold vec_at. destruct (Z.ltb_spec i 0); [reflexivity|].
  assert ((take upper v ++ out ++ drop (S lower) v) !! Z.to_nat i = v !! Z.to_nat i)
    as ->; [|reflexivity].
  destruct Hi as [Hi|Hi].
  - rewrite lookup_app_l by len_solve. apply lookup_take_lt. lia.
  - rewrite lookup_app_r by len_solve. rewrite lookup_app_r by len_solve.
    rewrite lookup_drop. f_equal. rewrite length_take. lia.
Qed.

Lemma merge_range (cmp : IStringComparer) (v : vec) (upper mid lower : nat) :
  (upper <= mid < lower)%nat -> (lower < length v)%nat -> Z.of_nat lower <= INT_MAX ->
  merge v (Z.of_nat upper) (Z.of_nat mid) (Z.of_nat lower) cmp
  = let* m := merge_lists cmp (take (S mid - upper) (drop upper v))
                              (take (lower - mid) (drop (S mid) v)) in
    Done (take upper v ++ m ++ drop (S lower) v).
Proof.
  intros Hrange Hlen Hmax.
  set (A := take upper v). set (B := take (S mid - upper) (drop upper v)).
  set (C := take (lower - mid) (drop (S mid) v)). set (D := drop (S lower) v).
  assert (A ++ B ++ C ++ D = v) as Hv.
  { unfold A, B, C, D. rewrite <- (take_drop upper v) at 5. f_equal.
    rewrite <- (take_drop (S mid - upper) (drop upper v)) at 2. f_equal.
    rewrite drop_drop. replace (upper + (S mid - upper))%nat with (S mid) by lia.
    rewrite <- (take_drop (lower - mid) (drop (S mid) v)) at 2. f_equal.
    rewrite drop_drop. f_equal. lia. }
  assert (length A = upper) as HA by (unfold A; len_solve).
  assert (length B = (S mid - upper)%nat) as HB by (unfold B; len_solve).
  assert (length C = (lower - mid)%nat) as HC by (unfold C; len_solve).
  rewrite <- Hv at 1.
  replace (Z.of_nat upper) with (Z.of_nat (length A)) by now rewrite HA.
  apply merge_spec; lia.
Qed.

(** ** Sorting under a policy *)

Lemma answered_order_fits (P : ESortType) : fits (answered_order P) (comparer P).
Proof.
  intros a b. destruct (verdict_order P a b) as [Ht Hf].
  split; intros H; apply comparer_Done in H as [Hans Hv]; split; auto.
  now apply answers_sym.
Qed.

Lemma returns_StronglySorted (cmp : IStringComparer) (X : vec) :
  (forall a b : string, a ∈ X -> b ∈ X -> returns (IsFirstAboveSecond cmp a b)) ->
  StronglySorted (fun a b => returns (IsFirstAboveSecond cmp a b)) X.
Proof.
  induction X as [|x X IH]; intros H; constructor.
  - apply IH. intros a b Ha Hb. apply H; now right.
  - apply Forall_forall. intros b Hb. apply H; [left|now right].
Qed.

Lemma answered_StronglySorted (P : ESortType) (X : vec) :
  Sorted (answered_order P) X ->
  StronglySorted (fun a b => returns (IsFirstAboveSecond (comparer P) a b)) X.
Proof.
  intros H. apply Sorted_StronglySorted in H; [|apply answered_order_trans].
  induction H as [|x X HX IH Hx]; constructor; [assumption|].
  eapply Forall_impl; [exact Hx|]. intros b [_ Hb]. now apply comparer_returns.
Qed.

Lemma Sorted_weaken (R R' : relation string) (X : vec) :
  (forall a b, R a b -> R' a b) -> Sorted R X -> Sorted R' X.
Proof.
  intros HR H. induction H as [|x X HX IH Hx]; constructor; [assumption|].
  destruct Hx; constructor; auto.
Qed.

(** The list sorted again under the same policy is returned unchanged. *)
Lemma sort_list_sorted_again (P : ESortType) (fuel fuel' : nat) (X out : vec) :
  sort_list fuel (comparer P) X = Done out ->
  (length X <= fuel')%nat -> (0 < fuel')%nat ->
  sort_list fuel' (comparer P) out = Done out.
Proof.
  intros Hout Hlen Hpos.
  pose proof (sort_list_Sorted _ _ _ _ _ (answered_order_fits P) Hout) as Hsorted.
  destruct (sort_list_returns (comparer P) fuel' out) as [out' Hout'].
  - rewrite (sort_list_length _ _ _ _ Hout). assumption.
  - assumption.
  - now apply answered_StronglySorted.
  - rewrite Hout'. f_equal.
    apply (Sorted_unique (sort_order P)).
    + eapply Sorted_weaken; [|exact (sort_list_Sorted _ _ _ _ _ (answered_order_fits P) Hout')].
      now intros a b [H _].
    + eapply Sorted_weaken; [|exact Hsorted]. now intros a b [H _].
    + exact (sort_list_Permutation _ _ _ _ Hout').
Qed.

(** Between neighbours of a list sorted under policy [P], the comparer
    answers that the later is not above the earlier, unless
    ([LastLetterAsc] only) the two are the same string. *)
Lemma answered_neighbours (P : ESortType) (x y : string) :
  answered_order P x y -> (P = LastLetterAsc -> x <> y) ->
  IsFirstAboveSecond (comparer P) y x = Done false.
Proof.
  intros [Hle Hans] Hne. rewrite comparer_answers by now apply answers_sym.
  f_equal. now apply verdict_neighbours.
Qed.

(** The policies under which strings of 2^32 characters or more are not
    compared by cursor, or the strings of [L] being shorter. *)
Definition comparable (P : ESortType) (L : vec) : Prop :=
  P = LastLetterAsc \/ Forall short L.

Lemma comparable_answers (P : ESortType) (L : vec) (a b : string) :
  comparable P L -> a ∈ L -> answers P a b.
Proof.
  intros [->|HL] Ha; [exact I|].
  apply answers_short. left. revert Ha. now apply Forall_forall.
Qed.

Lemma comparable_Permutation (P : ESortType) (L L' : vec) :
  L ≡ₚ L' -> comparable P L -> comparable P L'.
Proof. intros HL [H|H]; [now left|right]. now rewrite <- HL. Qed.

Lemma comparable_take (P : ESortType) (L : vec) (n : nat) :
  comparable P L -> comparable P (take n L).
Proof. intros [H|H]; [now left|right]. now apply Forall_take. Qed.

Lemma sort_list_comparable (P : ESortType) (fuel : nat) (X : vec) :
  comparable P X -> (length X <= fuel)%nat -> (0 < fuel)%nat ->
  returns (sort_list fuel (comparer P) X).
Proof.
  intros HX Hlen Hpos. apply sort_list_returns; [assumption|assumption|].
  apply returns_StronglySorted. intros a b Ha _.
  apply comparer_returns. now apply (comparable_answers P X).
Qed.

Lemma Sort_returns (L : vec) (P : ESortType) : comparable P L -> returns (Sort L P).
Proof.
  intros HL. rewrite Sort_spec. pose proof (sort_fuel_enough L) as [Hpos Hle].
  destruct (sort_list_comparable P (sort_fuel L) (take (sort_range L) L)) as [out ->].
  - now apply comparable_take.
  - rewrite length_take. lia.
  - assumption.
  - apply returns_Done.
Qed.

(** Two cells are sorted by one comparison. *)
Lemma Sort_pair (a b : string) (P : ESortType) :
  Sort [a; b] P
  = let* above := IsFirstAboveSecond (comparer P) a b in
    Done (if above then [a; b] else [b; a]).
Proof.
  rewrite Sort_spec. change (sort_fuel [a; b]) with 2%nat.
  change (sort_range [a; b]) with 2%nat.
  change (take 2 [a; b]) with [a; b]. change (drop 2 [a; b]) with (@nil string).
  assert (sort_list 2 (comparer P) [a; b] = merge_lists (comparer P) [a] [b]) as ->
      by reflexivity.
  rewrite merge_lists_cons.
  destruct (IsFirstAboveSecond (comparer P) a b) as [[|]| |]; reflexivity.
Qed.

(** * The properties of the specification *)

(** The claim's "non-decreasing": the comparer answers, of every cell,
    that it is not above the cell before it. *)
Definition non_decreasing (cmp : IStringComparer) (out : vec) : Prop :=
  forall (i : nat) (x y : string),
    out !! i = Some x -> out !! S i = Some y ->
    IsFirstAboveSecond cmp y x = Done false.

(** The same, asked only of neighbours that are different strings. *)
Definition non_decreasing_distinct (cmp : IStringComparer) (out : vec) : Prop :=
  forall (i : nat) (x y : string),
    out !! i = Some x -> out !! S i = Some y -> x <> y ->
    IsFirstAboveSecond cmp y x = Done false.

(** A list of 2^31 + 1 strings that is not sorted: its last two cells are
    ["b"] and ["a"]. *)
Definition giant_list : vec := replicate (Z.to_nat 2147483647) "b" ++ ["b"; "a"].

(** A string of 2^32 characters. *)
Definition giant_string : string :=
  string_of_list_ascii (replicate cursor_range "a"%char).

Lemma giant_list_length : Z.of_nat (length giant_list) = 2147483649.
Proof.
  unfold giant_list. rewrite length_app, length_replicate, Nat2Z.inj_add.
  rewrite Z2Nat.id by lia. reflexivity.
Qed.

Lemma Sort_giant_list (P : ESortType) : Sort giant_list P = Done giant_list.
Proof.
  unfold Sort, MergeSortWrapper. destruct (select_comparer P) as [cerr cmp]. simpl snd.
  apply MergeSort_outside.
  unfold last_index, vec_size. rewrite giant_list_length. discriminate.
Qed.

Lemma chars_app (a b : string) : chars (a +:+ b) = chars a ++ chars b.
Proof. unfold chars. induction a as [|c a IH]; simpl; [reflexivity|]. now rewrite IH. Qed.

Lemma chars_giant_string : chars giant_string = replicate cursor_range "a"%char.
Proof. apply list_ascii_of_string_of_list_ascii. Qed.

Lemma undecided_replicate (n : nat) (c : ascii) (s t : list ascii) :
  ~ decided n (replicate n c ++ s) (replicate n c ++ t).
Proof. induction n as [|n IH]; simpl; tauto. Qed.

(** Two strings that start with the same 2^32 characters. *)
Lemma undecided_giant_string (s t : string) :
  ~ decided cursor_range (chars (giant_string +:+ s)) (chars (giant_string +:+ t)).
Proof. rewrite !chars_app, chars_giant_string. apply undecided_replicate. Qed.

Lemma giant_string_end : giant_string +:+ EmptyString = giant_string.
Proof.
  apply chars_inj. rewrite chars_app. apply app_nil_r.
Qed.

(** No fuel is enough for the cursor loops on such strings. *)
Lemma Alph_loops_giant_string (s t : string) (fuel : nat) :
  AlphAsc_loop fuel (giant_string +:+ s) (giant_string +:+ t) 0 = OutOfFuel
  /\ AlphDesc_loop fuel (giant_string +:+ s) (giant_string +:+ t) 0 = OutOfFuel.
Proof.
  pose proof cursor_range_Z as Hrange.
  rewrite AlphDesc_loop_swap. change 0 with (Z.of_nat 0).
  split; apply AlphAsc_loop_diverges; try lia; apply undecided_giant_string.
Qed.

(** C1, as amended.  For every list [L] of at most 2^31 strings, which
    under [AlphAsc] and [AlphDesc] are shorter than 2^32 characters, and
    every policy [P], [Sort L P] returns a permutation of [L] of the same
    length in which, under [AlphAsc] and [AlphDesc], the comparer answers of
    no cell that it is above the cell before it, and under [LastLetterAsc]
    of no cell that it is above a different string in the cell before it. *)
Theorem Sort_sorted_permutation (L : vec) (P : ESortType) :
  Z.of_nat (length L) <= 2147483648 ->
  P = LastLetterAsc \/ Forall short L ->
  exists out : vec,
    Sort L P = Done out
    /\ out ≡ₚ L
    /\ length out = length L
    /\ (P <> LastLetterAsc -> non_decreasing (comparer P) out)
    /\ (P = LastLetterAsc -> non_decreasing_distinct (comparer P) out).
Proof.
  intros Hlen Hshort.
  pose proof (sort_fuel_enough L) as [Hpos Hle].
  rewrite sort_range_small in Hle by (unfold INT_MAX; lia).
  destruct (sort_list_comparable P (sort_fuel L) L Hshort Hle Hpos) as [out Hout].
  exists out. rewrite Sort_spec.
  rewrite sort_range_small by (unfold INT_MAX; lia).
  rewrite take_ge, drop_all, Hout by lia. cbn [bind]. rewrite app_nil_r.
  pose proof (sort_list_Permutation _ _ _ _ Hout) as Hperm.
  pose proof (sort_list_Sorted _ _ _ _ _ (answered_order_fits P) Hout) as Hsorted.
  split; [reflexivity|]. split; [assumption|].
  split; [now apply Permutation_length|].
  split; intros HP i x y Hx Hy.
  - apply answered_neighbours; [|congruence].
    eapply Sorted_lookup_adjacent; eauto.
  - intros Hne. apply answered_neighbours; [|auto].
    eapply Sorted_lookup_adjacent; eauto.
Qed.

(** The theorem at a list of three strings. *)
Lemma Sort_sorted_permutation_witness :
  exists out : vec,
    Sort ["banana"; "apple"; "Apple"] AlphAsc = Done out
    /\ out ≡ₚ ["banana"; "apple"; "Apple"]
    /\ length out = 3%nat
    /\ (AlphAsc <> LastLetterAsc -> non_decreasing (comparer AlphAsc) out)
    /\ (AlphAsc = LastLetterAsc -> non_decreasing_distinct (comparer AlphAsc) out).
Proof.
  apply (Sort_sorted_permutation ["banana"; "apple"; "Apple"] AlphAsc).
  - simpl. lia.
  - right. repeat constructor; unfold short, string_length; simpl; lia.
Defined.

(** C1 fails as stated, in three ways.  Under [LastLetterAsc] the comparer
    puts a string above itself, so the sorted list ["a"; "a"] has a cell
    above the cell before it.  A list of 2^31 + 1 strings is returned as it
    is, because [size() - 1] becomes a negative [int].  And sorting two
    copies of a string of 2^32 characters under [AlphAsc] does not return,
    because the [unsigned int] cursor of the comparer wraps to 0 before it
    reaches the end of the strings. *)
Lemma Sort_not_always_non_decreasing :
  (exists out : vec,
     Sort ["a"; "a"] LastLetterAsc = Done out
     /\ ~ non_decreasing (comparer LastLetterAsc) out)
  /\ (exists out : vec,
        Sort giant_list AlphAsc = Done out
        /\ ~ non_decreasing (comparer AlphAsc) out)
  /\ Sort [giant_string; giant_string] AlphAsc = OutOfFuel
  /\ (forall fuel : nat, AlphAsc_loop fuel giant_string giant_string 0 = OutOfFuel).
Proof.
  split; [|split; [|split]].
  - exists ["a"; "a"]. split; [reflexivity|].
    intros H. specialize (H 0%nat "a" "a" eq_refl eq_refl). discriminate.
  - exists giant_list. split; [apply Sort_giant_list|].
    intros H. specialize (H (Z.to_nat 2147483647) "b" "a").
    assert (IsFirstAboveSecond (comparer AlphAsc) "a" "b" = Done false) as Hab;
      [|discriminate].
    apply H; unfold giant_list.
    + rewrite lookup_app_r by (rewrite length_replicate; lia).
      rewrite length_replicate, Nat.sub_diag. reflexivity.
    + rewrite lookup_app_r by (rewrite length_replicate; lia).
      rewrite length_replicate.
      replace (S (Z.to_nat 2147483647) - Z.to_nat 2147483647)%nat with 1%nat by lia.
      reflexivity.
  - rewrite Sort_pair, comparer_silent; [reflexivity|].
    rewrite <- giant_string_end. apply undecided_giant_string.
  - intros fuel. rewrite <- giant_string_end. apply Alph_loops_giant_string.
Qed.

(** C5.  Sorting is idempotent: for every list [L] and every policy [P],
    sorting what [Sort L P] returns again under [P] returns it unchanged
    (and where [Sort L P] does not return, neither does sorting twice); and
    [Sort L P] returns a list under [LastLetterAsc], and under the other
    policies when the strings of [L] are shorter than 2^32 characters. *)
Theorem Sort_idempotent (L : vec) (P : ESortType) :
  (let* out := Sort L P in Sort out P) = Sort L P
  /\ (forall out : vec, Sort L P = Done out -> Sort out P = Done out)
  /\ (P = LastLetterAsc \/ Forall short L -> returns (Sort L P)).
Proof.
  assert (forall out : vec, Sort L P = Done out -> Sort out P = Done out) as Hagain.
  { intros L' HL'. rewrite Sort_spec in HL'.
    apply bind_Done in HL' as (out & Hout & [= <-]).
    pose proof (sort_range_le L) as Hle.
    pose proof (sort_fuel_enough L) as [Hpos Hfuel].
    assert (length out = sort_range L) as Hlen.
    { rewrite (sort_list_length _ _ _ _ Hout), length_take. lia. }
    assert (length (out ++ drop (sort_range L) L) = length L) as Hlen' by len_solve.
    rewrite Sort_spec. unfold sort_fuel at 1.
    rewrite (sort_range_length (out ++ drop (sort_range L) L) L) by assumption.
    rewrite (last_index_length (out ++ drop (sort_range L) L) L) by assumption.
    rewrite take_app_length', drop_app_length' by now symmetry.
    fold (sort_fuel L).
    rewrite (sort_list_sorted_again P _ _ _ _ Hout);
      [reflexivity|rewrite length_take; lia|assumption]. }
  split; [|split; [assumption|apply Sort_returns]].
  destruct (Sort L P) as [out| |] eqn:E; cbn [bind]; auto.
Qed.

(** C7.  Sorting the empty list returns the empty list under every
    selector: [size() - 1] on the empty list is passed as the [int] -1, and
    [MergeSort] called with the range [0 .. -1] returns with the vector
    unchanged. *)
Theorem Sort_empty (P : ESortType) :
  Sort [] P = Done []
  /\ last_index [] = -1
  /\ forall (v : vec) (cmp : IStringComparer), MergeSort v 0 (-1) cmp = Done v.
Proof.
  split; [|split].
  - unfold Sort, MergeSortWrapper. destruct (select_comparer P) as [cerr cmp].
    simpl snd. now apply MergeSort_outside.
  - reflexivity.
  - intros v cmp. now apply MergeSort_outside.
Qed.

Lemma select_comparer_unknown (sortType : ESortType) :
  sortType <> AlphAsc -> sortType <> AlphDesc -> sortType <> LastLetterAsc ->
  select_comparer sortType = ([unknown_sort_type_message], AlphAscStrComp).
Proof.
  unfold AlphAsc, AlphDesc, LastLetterAsc.
  destruct sortType as [|[p|p|]|p]; try destruct p as [p|p|]; simpl; congruence.
Qed.

(** C8.  A selector that is none of the three enumerators does not stop the
    run: [MergeSortWrapper] writes its diagnostic and does what it does for
    [AlphAsc], which is to return a list when the strings are shorter than
    2^32 characters. *)
Theorem MergeSortWrapper_unknown_selector (L : vec) (sortType : ESortType) :
  sortType <> AlphAsc -> sortType <> AlphDesc -> sortType <> LastLetterAsc ->
  MergeSortWrapper L sortType = ([unknown_sort_type_message], Sort L AlphAsc)
  /\ Sort L sortType = Sort L AlphAsc
  /\ (Forall short L -> exists out : vec, Sort L sortType = Done out).
Proof.
  intros H0 H1 H2.
  assert (MergeSortWrapper L sortType = ([unknown_sort_type_message], Sort L AlphAsc)) as E.
  { unfold MergeSortWrapper. now rewrite select_comparer_unknown. }
  split; [assumption|].
  assert (Sort L sortType = Sort L AlphAsc) as E' by (unfold Sort at 1; now rewrite E).
  split; [assumption|]. intros Hshort. apply Sort_returns. now right.
Qed.

(** The theorem at the selector 7. *)
Lemma MergeSortWrapper_unknown_selector_witness :
  MergeSortWrapper ["b"; "a"] 7 = ([unknown_sort_type_message], Sort ["b"; "a"] AlphAsc)
  /\ Sort ["b"; "a"] 7 = Sort ["b"; "a"] AlphAsc
  /\ (Forall short ["b"; "a"] -> exists out : vec, Sort ["b"; "a"] 7 = Done out).
Proof.
  apply (MergeSortWrapper_unknown_selector ["b"; "a"] 7);
    unfold AlphAsc, AlphDesc, LastLetterAsc; lia.
Defined.

Lemma returns_everywhere (cmp : IStringComparer) (X : vec) :
  (forall a b : string, returns (IsFirstAboveSecond cmp a b)) ->
  StronglySorted (fun a b => returns (IsFirstAboveSecond cmp a b)) X.
Proof. intros H. apply returns_StronglySorted. auto. Qed.

(** C10.  For every vector, every comparer and every pair of [int] indices
    with [0 <= upper <= lower < v.size()], the vector [MergeSort] returns
    has the length of its argument and the same cells below [upper] and
    above [lower]; so has the vector [merge] returns for every [mid] with
    [upper <= mid < lower]; and both return when the comparer does. *)
Theorem MergeSort_frame (v : vec) (upper lower : Z) (cmp : IStringComparer) :
  0 <= upper <= lower -> lower < vec_size v -> lower <= INT_MAX ->
  (forall v' : vec,
     MergeSort v upper lower cmp = Done v' ->
     length v' = length v
     /\ forall i : Z, i < upper \/ lower < i -> vec_at v' i = vec_at v i)
  /\ (forall (mid : Z) (v' : vec),
        upper <= mid < lower ->
        merge v upper mid lower cmp = Done v' ->
        length v' = length v
        /\ forall i : Z, i < upper \/ lower < i -> vec_at v' i = vec_at v i)
  /\ ((forall a b : string, returns (IsFirstAboveSecond cmp a b)) ->
      returns (MergeSort v upper lower cmp)
      /\ forall mid : Z, upper <= mid < lower -> returns (merge v upper mid lower cmp)).
Proof.
  unfold vec_size. intros Hrange Hsize Hmax.
  rewrite <- (Z2Nat.id upper), <- (Z2Nat.id lower) by lia.
  set (u := Z.to_nat upper). set (l := Z.to_nat lower).
  assert (u <= l < length v)%nat as Hnat by lia.
  assert (Z.of_nat l <= INT_MAX) as Hmax' by lia.
  rewrite (MergeSort_range cmp v u l Hnat Hmax').
  split; [|split].
  - intros v' H. apply bind_Done in H as (out & Hout & [= <-]).
    apply splice_frame; [assumption|].
    rewrite (sort_list_length _ _ _ _ Hout). len_solve.
  - intros mid v' Hmid. rewrite <- (Z2Nat.id mid) by lia.
    rewrite merge_range by lia. intros H.
    apply bind_Done in H as (m & Hm & [= <-]).
    apply splice_frame; [assumption|].
    rewrite (Permutation_length (merge_lists_Permutation _ _ _ _ Hm)). len_solve.
  - intros Hcmp. split.
    + destruct (sort_list_returns cmp (S l - u) (take (S l - u) (drop u v)))
        as [out ->]; [len_solve|lia|now apply returns_everywhere|].
      apply returns_Done.
    + intros mid Hmid. rewrite <- (Z2Nat.id mid) by lia.
      rewrite merge_range by lia.
      destruct (merge_lists_returns cmp
                  (take (S (Z.to_nat mid) - u) (drop u v))
                  (take (l - Z.to_nat mid) (drop (S (Z.to_nat mid)) v)))
        as [m ->]; [auto|].
      apply returns_Done.
Qed.

(** The theorem at the range [1 .. 3] of a vector of five strings. *)
Lemma MergeSort_frame_witness :
  (forall v' : vec,
     MergeSort ["e"; "d"; "c"; "b"; "a"] 1 3 AlphAscStrComp = Done v' ->
     length v' = 5%nat
     /\ forall i : Z, i < 1 \/ 3 < i ->
          vec_at v' i = vec_at ["e"; "d"; "c"; "b"; "a"] i)
  /\ (forall (mid : Z) (v' : vec),
        1 <= mid < 3 ->
        merge ["e"; "d"; "c"; "b"; "a"] 1 mid 3 AlphAscStrComp = Done v' ->
        length v' = 5%nat
        /\ forall i : Z, i < 1 \/ 3 < i ->
             vec_at v' i = vec_at ["e"; "d"; "c"; "b"; "a"] i)
  /\ ((forall a b : string, returns (IsFirstAboveSecond AlphAscStrComp a b)) ->
      returns (MergeSort ["e"; "d"; "c"; "b"; "a"] 1 3 AlphAscStrComp)
      /\ forall mid : Z, 1 <= mid < 3 ->
           returns (merge ["e"; "d"; "c"; "b"; "a"] 1 mid 3 AlphAscStrComp)).
Proof.
  apply (MergeSort_frame ["e"; "d"; "c"; "b"; "a"] 1 3 AlphAscStrComp);
    unfold vec_size, INT_MAX; simpl; lia.
Defined.

(** ** The comparers as relations *)

Lemma lex_compare_prefix (x : list ascii) (c : ascii) (s : list ascii) :
  lex_compare x (x ++ c :: s) = Lt.
Proof.
  induction x as [|d x IH]; simpl; [reflexivity|]. now rewrite Z.compare_refl.
Qed.

Lemma char_ne_true (x y : ascii) : x <> y -> char_ne x y = true.
Proof.
  intros H. unfold char_ne. apply negb_true_iff, Z.eqb_neq.
  intros E. now apply char_val_inj in E.
Qed.

Lemma char_ne_same (x : ascii) : char_ne x x = false.
Proof. unfold char_ne. now rewrite Z.eqb_refl. Qed.

Lemma LastLetterAsc_loop_common (r t1 t2 : list ascii) :
  LastLetterAsc_loop (r ++ t1) (r ++ t2) = LastLetterAsc_loop t1 t2.
Proof. induction r as [|c r IH]; simpl; [reflexivity|]. now rewrite char_ne_same. Qed.

Lemma verdict_same (P : ESortType) (a : string) :
  verdict P a a = if P =? LastLetterAsc then true else false.
Proof.
  destruct (policy_cases P)
    as [(-> & _ & _ & -> & _)|[(-> & _ & _ & -> & _)|(H1 & H2 & _ & _ & -> & _)]];
    unfold gt_verdict, le_verdict, lt_verdict; rewrite lex_compare_refl;
    try reflexivity.
  unfold LastLetterAsc. now destruct (Z.eqb_spec P 2).
Qed.

(** What a comparer answers is transitive, for every policy. *)
Lemma comparer_transitive (P : ESortType) (a b c : string) :
  IsFirstAboveSecond (comparer P) a b = Done true ->
  IsFirstAboveSecond (comparer P) b c = Done true ->
  IsFirstAboveSecond (comparer P) a c = Done true.
Proof.
  intros Hab Hbc.
  pose proof (proj1 (answered_order_fits P a b) Hab) as Oab.
  pose proof (proj1 (answered_order_fits P b c) Hbc) as Obc.
  assert (answered_order P a c) as [Oac Aac] by now transitivity b.
  rewrite comparer_answers by assumption. f_equal.
  destruct (verdict P a c) eqn:E; [reflexivity|exfalso].
  pose proof (proj2 (verdict_order P a c) E) as Oca.
  assert (a = b) as <-.
  { apply (anti_symm (sort_order P)); [apply Oab|].
    transitivity c; [apply Obc|assumption]. }
  assert (a = c) as <- by (apply (anti_symm (sort_order P)); assumption).
  apply comparer_Done in Hab as [_ Hab]. congruence.
Qed.

(** Two strings a comparer puts above each other are the same string. *)
Lemma comparer_both_above (P : ESortType) (a b : string) :
  IsFirstAboveSecond (comparer P) a b = Done true ->
  IsFirstAboveSecond (comparer P) b a = Done true ->
  a = b.
Proof.
  intros Hab Hba.
  apply (anti_symm (sort_order P)).
  - apply (proj1 (answered_order_fits P a b) Hab).
  - apply (proj1 (answered_order_fits P b a) Hba).
Qed.

Lemma LastLetterAsc_above_itself (a : string) :
  IsFirstAboveSecond LastLetterAscStrComp a a = Done true.
Proof.
  rewrite LastLetterAsc_answers. unfold le_verdict. now rewrite lex_compare_refl.
Qed.

Lemma Alph_not_above_itself (P : ESortType) (a : string) :
  P <> LastLetterAsc -> IsFirstAboveSecond (comparer P) a a <> Done true.
Proof.
  intros HP H. apply comparer_Done in H as [_ H]. rewrite verdict_same in H.
  destruct (Z.eqb_spec P LastLetterAsc); congruence.
Qed.

(** C2, as amended.  [AlphAscStrComp] and [AlphDescStrComp] are strict
    orders where they return, which they do when one of the two strings is
    shorter than 2^32 characters: no string is above itself, two strings are
    never above each other, and being above is transitive.
    [LastLetterAscStrComp] always returns, is transitive, and never puts two
    different strings above each other. *)
Theorem comparers_strict_orders :
  (forall cmp : IStringComparer,
      cmp = AlphAscStrComp \/ cmp = AlphDescStrComp ->
      (forall a b : string, short a \/ short b ->
         returns (IsFirstAboveSecond cmp a b))
      /\ (forall a : string, short a -> IsFirstAboveSecond cmp a a = Done false)
      /\ (forall a b : string,
            ~ (IsFirstAboveSecond cmp a b = Done true
               /\ IsFirstAboveSecond cmp b a = Done true))
      /\ (forall a b c : string,
            IsFirstAboveSecond cmp a b = Done true ->
            IsFirstAboveSecond cmp b c = Done true ->
            IsFirstAboveSecond cmp a c = Done true))
  /\ (forall a b : string, returns (IsFirstAboveSecond LastLetterAscStrComp a b))
  /\ (forall a b : string,
        a <> b ->
        ~ (IsFirstAboveSecond LastLetterAscStrComp a b = Done true
           /\ IsFirstAboveSecond LastLetterAscStrComp b a = Done true))
  /\ (forall a b c : string,
        IsFirstAboveSecond LastLetterAscStrComp a b = Done true ->
        IsFirstAboveSecond LastLetterAscStrComp b c = Done true ->
        IsFirstAboveSecond LastLetterAscStrComp a c = Done true).
Proof.
  assert (forall P : ESortType, P <> LastLetterAsc ->
            (forall a b : string, short a \/ short b ->
               returns (IsFirstAboveSecond (comparer P) a b))
            /\ (forall a : string, short a ->
                  IsFirstAboveSecond (comparer P) a a = Done false)
            /\ (forall a b : string,
                  ~ (IsFirstAboveSecond (comparer P) a b = Done true
                     /\ IsFirstAboveSecond (comparer P) b a = Done true))
            /\ (forall a b c : string,
                  IsFirstAboveSecond (comparer P) a b = Done true ->
                  IsFirstAboveSecond (comparer P) b c = Done true ->
                  IsFirstAboveSecond (comparer P) a c = Done true)) as Halph.
  { intros P HP. split; [|split; [|split]].
    - intros a b Hshort. now apply comparer_returns, answers_short.
    - intros a Hshort. rewrite comparer_answers by (apply answers_short; now left).
      rewrite verdict_same. now destruct (Z.eqb_spec P LastLetterAsc).
    - intros a b [Hab Hba].
      pose proof (comparer_both_above P a b Hab Hba) as <-.
      now apply (Alph_not_above_itself P a).
    - apply comparer_transitive. }
  split; [|split; [|split]].
  - intros cmp [->| ->].
    + now apply (Halph AlphAsc).
    + now apply (Halph AlphDesc).
  - intros a b. rewrite LastLetterAsc_answers. apply returns_Done.
  - intros a b Hne [Hab Hba]. apply Hne.
    now apply (comparer_both_above LastLetterAsc).
  - apply (comparer_transitive LastLetterAsc).
Qed.

(** The theorem at [AlphAscStrComp] and the string ["a"]. *)
Lemma comparers_strict_orders_witness :
  IsFirstAboveSecond AlphAscStrComp "a" "a" = Done false.
Proof.
  apply (proj1 (proj2 (proj1 comparers_strict_orders AlphAscStrComp (or_introl eq_refl)))).
  unfold short, string_length. simpl. lia.
Defined.

(** C2 fails as stated, in two ways.  [LastLetterAscStrComp] reports a
    string as sorting before itself: both reverse walks end together and the
    end of the first is tested first.  And on two copies of a string of 2^32
    characters the two alphabetical comparers do not return, whatever the
    fuel of their loops. *)
Lemma comparers_not_irreflexive :
  IsFirstAboveSecond LastLetterAscStrComp "a" "a" = Done true
  /\ IsFirstAboveSecond AlphAscStrComp giant_string giant_string = OutOfFuel
  /\ IsFirstAboveSecond AlphDescStrComp giant_string giant_string = OutOfFuel
  /\ (forall fuel : nat,
        AlphAsc_loop fuel giant_string giant_string 0 = OutOfFuel
        /\ AlphDesc_loop fuel giant_string giant_string 0 = OutOfFuel).
Proof.
  assert (~ decided cursor_range (chars giant_string) (chars giant_string)) as Hund.
  { rewrite <- giant_string_end. apply undecided_giant_string. }
  split; [reflexivity|]. split; [now apply AlphAsc_silent|].
  split; [now apply AlphDesc_silent|].
  intros fuel. rewrite <- giant_string_end. apply Alph_loops_giant_string.
Qed.

(** C6, as amended.  [AlphDescStrComp] is [AlphAscStrComp] with its
    arguments swapped, for every pair of strings, and so are their loops,
    step for step; when one string is the other followed by at least one
    character, and the shorter has fewer than 2^32 characters, the longer
    one is above the shorter under [AlphDesc] and the shorter above the
    longer under [AlphAsc]. *)
Theorem AlphDesc_reverses_AlphAsc :
  (forall a b : string,
      IsFirstAboveSecond AlphDescStrComp a b = IsFirstAboveSecond AlphAscStrComp b a)
  /\ (forall (a : string) (c : ascii) (s : string),
        short a ->
        IsFirstAboveSecond AlphDescStrComp (a +:+ String c s) a = Done true
        /\ IsFirstAboveSecond AlphDescStrComp a (a +:+ String c s) = Done false
        /\ IsFirstAboveSecond AlphAscStrComp a (a +:+ String c s) = Done true
        /\ IsFirstAboveSecond AlphAscStrComp (a +:+ String c s) a = Done false)
  /\ (forall (fuel : nat) (a b : string) (i : Z),
        AlphDesc_loop fuel a b i = AlphAsc_loop fuel b a i).
Proof.
  split; [exact AlphDesc_swap|]. split; [|exact AlphDesc_loop_swap].
  intros a c s Hshort.
  assert (decided cursor_range (chars a) (chars (a +:+ String c s))) as Hdec.
  { pose proof cursor_range_Z as Hrange. unfold short, string_length in Hshort.
    apply decided_short. lia. }
  pose proof (decided_sym _ _ _ Hdec) as Hdec'.
  rewrite !AlphDesc_answers, !AlphAsc_answers by assumption.
  unfold gt_verdict, lt_verdict. rewrite chars_app.
  rewrite (lex_compare_antisym (chars a) (chars a ++ chars (String c s))).
  change (chars (String c s)) with (c :: chars s).
  rewrite lex_compare_prefix. clear. repeat split; reflexivity.
Qed.

(** The second part of the theorem at ["app"] and ["apple"]. *)
Lemma AlphDesc_reverses_AlphAsc_witness :
  IsFirstAboveSecond AlphDescStrComp ("app" +:+ "le") "app" = Done true
  /\ IsFirstAboveSecond AlphDescStrComp "app" ("app" +:+ "le") = Done false
  /\ IsFirstAboveSecond AlphAscStrComp "app" ("app" +:+ "le") = Done true
  /\ IsFirstAboveSecond AlphAscStrComp ("app" +:+ "le") "app" = Done false.
Proof.
  apply (proj1 (proj2 AlphDesc_reverses_AlphAsc) "app" "l"%char "e").
  unfold short, string_length. simpl. lia.
Defined.

(** C6 fails as stated on a string of 2^32 characters and the same string
    followed by one more character: neither comparer returns, whatever the
    fuel of its loop, because the cursor wraps to 0 before it reaches the
    end of the shorter string. *)
Lemma Alph_prefix_of_2_32_characters :
  IsFirstAboveSecond AlphDescStrComp (giant_string +:+ "b") giant_string = OutOfFuel
  /\ IsFirstAboveSecond AlphAscStrComp giant_string (giant_string +:+ "b") = OutOfFuel
  /\ (forall fuel : nat,
        AlphDesc_loop fuel (giant_string +:+ "b") giant_string 0 = OutOfFuel
        /\ AlphAsc_loop fuel giant_string (giant_string +:+ "b") 0 = OutOfFuel).
Proof.
  pose proof cursor_range_Z as Hrange.
  pose proof (undecided_giant_string EmptyString "b") as Hund.
  rewrite giant_string_end in Hund.
  split; [|split].
  - apply AlphDesc_silent. intros H. apply Hund, decided_sym, H.
  - apply AlphAsc_silent, Hund.
  - intros fuel. rewrite AlphDesc_loop_swap. change 0 with (Z.of_nat 0).
    split; apply AlphAsc_loop_diverges; first [exact Hund | lia].
Qed.

(** C9.  [LastLetterAscStrComp] compares from the last character backward:
    after a common ending, the first pair of different characters decides,
    the smaller one sorting first; a string that is a proper ending of the
    other sorts first; and [Sort] orders ["cat"; "bat"; "ace"] as
    ["ace"; "bat"; "cat"]. *)
Theorem LastLetterAsc_from_the_end :
  (forall (a b s : string) (x y : ascii),
      x <> y ->
      IsFirstAboveSecond LastLetterAscStrComp (a +:+ String x s) (b +:+ String y s)
      = Done (char_lt x y))
  /\ (forall (a : string) (c : ascii) (p : string),
        IsFirstAboveSecond LastLetterAscStrComp a (String c p +:+ a) = Done true
        /\ IsFirstAboveSecond LastLetterAscStrComp (String c p +:+ a) a = Done false)
  /\ Sort ["cat"; "bat"; "ace"] LastLetterAsc = Done ["ace"; "bat"; "cat"].
Proof.
  split; [|split].
  - intros a b s x y Hxy. cbn [IsFirstAboveSecond LastLetterAscStrComp].
    rewrite !chars_app. change (chars (String ?c s)) with (c :: chars s).
    rewrite !rev_app_distr. cbn [rev]. rewrite <- !app_assoc.
    rewrite LastLetterAsc_loop_common. cbn [app LastLetterAsc_loop].
    now rewrite char_ne_true.
  - intros a c p. cbn [IsFirstAboveSecond LastLetterAscStrComp].
    rewrite chars_app, rev_app_distr.
    change (chars (String c p)) with (c :: chars p). cbn [rev].
    rewrite <- (app_nil_r (rev (chars a))) at 1 4.
    rewrite !LastLetterAsc_loop_common.
    destruct (rev (chars p) ++ [c]) eqn:E; [now destruct (rev (chars p))|].
    split; reflexivity.
  - vm_compute. reflexivity.
Qed.

(** The first part of the theorem at ["cat"] and ["bat"]. *)
Lemma LastLetterAsc_from_the_end_witness :
  IsFirstAboveSecond LastLetterAscStrComp "cat" "bat" = Done (char_lt "c" "b").
Proof.
  apply (proj1 LastLetterAsc_from_the_end EmptyString EmptyString "at" "c"%char "b"%char).
  discriminate.
Defined.

(** ** The validator and the loader *)

(** A letter of [A-Za-z], by its character code. *)
Definition is_letter (c : ascii) : Prop :=
  let n := Z.of_N (N_of_ascii c) in 65 <= n <= 90 \/ 97 <= n <= 122.

Lemma special_char_iff (c : ascii) :
  isdigit (char_val c) || negb (isalnum (char_val c)) = false <-> is_letter c.
Proof.
  unfold is_letter, isalnum, isdigit, char_val.
  pose proof (N_ascii_bounded c) as Hc.
  set (n := Z.of_N (N_of_ascii c)). assert (0 <= n < 256) as Hn by (unfold n; lia).
  clearbody n. clear Hc.
  destruct (Z.ltb_spec n 128);
    repeat match goal with
           | |- context [?a <=? ?b] => destruct (Z.leb_spec a b)
           end;
    simpl; split; intros; try congruence; lia.
Qed.

Lemma ContainsSpecial_loop_letters (str : list ascii) :
  ContainsSpecial_loop str = false <-> Forall is_letter str.
Proof.
  induction str as [|ch rest IH]; simpl.
  - split; [constructor|reflexivity].
  - destruct (isdigit (char_val ch) || negb (isalnum (char_val ch))) eqn:E.
    + split; [discriminate|]. intros H. apply Forall_cons in H as [H _].
      apply special_char_iff in H. congruence.
    + apply special_char_iff in E. rewrite IH. split.
      * intros H. now constructor.
      * intros H. now apply Forall_cons in H as [_ H].
Qed.

Lemma ReadFile_loop_filter (lines : list string) (listOut : vec) :
  ReadFile_loop lines listOut
  = listOut ++ List.filter
                 (fun line => negb (string_empty line) && negb (ContainsSpecial line))
                 lines.
Proof.
  revert listOut; induction lines as [|line rest IH]; intros listOut; simpl.
  - now rewrite app_nil_r.
  - destruct (string_empty line); simpl; [apply IH|].
    destruct (ContainsSpecial line); simpl; [apply IH|].
    now rewrite IH, <- app_assoc.
Qed.

(** C4.  [ReadFile] keeps exactly the lines that are not empty and for which
    [ContainsSpecial] is false, in their order; these are the lines that
    are not empty and made of letters of [A-Za-z] only; ["abc123"], the
    empty line and ["hello world"] are rejected and ["Hello"] is kept. *)
Theorem ReadFile_keeps_letter_lines :
  (forall (fs : file_system) (fileName : string),
      ReadFile fs fileName
      = List.filter
          (fun line => negb (string_empty line) && negb (ContainsSpecial line))
          (default [] (fs fileName)))
  /\ (forall text : string,
        IsValid text = true <-> text <> EmptyString /\ Forall is_letter (chars text))
  /\ IsValid "abc123" = false
  /\ IsValid EmptyString = false
  /\ IsValid "hello world" = false
  /\ IsValid "Hello" = true.
Proof.
  split; [|split; [|repeat split]].
  - intros fs fileName. unfold ReadFile.
    destruct (fs fileName) as [lines|]; simpl; [|reflexivity].
    now rewrite ReadFile_loop_filter.
  - intros text. unfold IsValid, ContainsSpecial.
    rewrite andb_true_iff, !negb_true_iff, ContainsSpecial_loop_letters.
    destruct text; simpl; intuition congruence.
Qed.

(** ** The two ingestion strategies *)

(** The lines of all the files, in the order of the file list. *)
Definition all_lines (fs : file_system) (fileList : list string) : vec :=
  concat (map (ReadFile fs) fileList).

Lemma singleThreading_loop_all_lines (fs : file_system) (fileList : list string)
    (finalList : vec) :
  singleThreading_loop fs fileList finalList = finalList ++ all_lines fs fileList.
Proof.
  unfold all_lines. revert finalList.
  induction fileList as [|i rest IH]; intros finalList; simpl.
  - now rewrite app_nil_r.
  - now rewrite IH, app_assoc.
Qed.

Lemma all_lines_snoc (fs : file_system) (files : list string) (file : string) :
  all_lines fs (files ++ [file]) = all_lines fs files ++ ReadFile fs file.
Proof. unfold all_lines. rewrite map_app, concat_app. simpl. now rewrite app_nil_r. Qed.

(** A task holds nothing, or the lines of its own file. *)
Definition task_ok (fs : file_system) (file : string) (t : task) : Prop :=
  t = Reading \/ t = Flagged (ReadFile fs file) \/ t = Returned (ReadFile fs file).

(** What holds in every state of [multiThreading]: each task is at its own
    file, what the caller has gathered so far is the lines of the first
    files of the list, and what it hands over is the sorted list of all
    lines. *)
Definition mt_inv (fs : file_system) (fileList : list string) (sortType : ESortType)
    (s : mt_state) : Prop :=
  Forall2 (task_ok fs) fileList (tasks s)
  /\ match caller s with
     | Polling => True
     | Gathering next finalList =>
         finalList = all_lines fs (take next fileList)
     | Finished output => output = Sort (all_lines fs fileList) sortType
     end.

Section multiThreading.
Context (fs : file_system) (fileList : list string) (sortType : ESortType).

Lemma mt_inv_init : mt_inv fs fileList sortType (mt_init fileList).
Proof.
  split; simpl; [|trivial].
  apply Forall2_replicate_r; [reflexivity|].
  apply Forall_forall. intros file _. now left.
Qed.

Lemma mt_inv_step (s s' : mt_state) :
  mt_inv fs fileList sortType s -> mt_step fs fileList sortType s s' ->
  mt_inv fs fileList sortType s'.
Proof.
  intros [Htasks Hcaller] Hstep.
  destruct Hstep as [s i file Hfile Ht|s i result Ht|s Hc Hf|s Hc Hf
                    |s next finalList result Hc Ht|s next finalList Hc Hn];
    split; simpl; try assumption.
  - rewrite <- (list_insert_id fileList i file Hfile).
    apply Forall2_insert; [assumption|]. right. now left.
  - destruct (Forall2_lookup_r _ _ _ _ _ Htasks Ht) as (file & Hfile & Hok).
    rewrite <- (list_insert_id fileList i file Hfile).
    apply Forall2_insert; [assumption|].
    destruct Hok as [Hok|[Hok|Hok]]; try discriminate.
    injection Hok as ->. right. now right.
  - reflexivity.
  - rewrite Hc in Hcaller. subst finalList.
    destruct (Forall2_lookup_r _ _ _ _ _ Htasks Ht) as (file & Hfile & Hok).
    destruct Hok as [Hok|[Hok|Hok]]; try discriminate.
    injection Hok as ->.
    rewrite (take_S_r _ _ _ Hfile). now rewrite all_lines_snoc.
  - rewrite Hc in Hcaller. subst finalList next.
    rewrite <- (Forall2_length _ _ _ Htasks). now rewrite take_ge.
Qed.

Lemma mt_inv_reachable (s : mt_state) :
  rtc (mt_step fs fileList sortType) (mt_init fileList) s ->
  mt_inv fs fileList sortType s.
Proof.
  intros Hrun. pose proof mt_inv_init as Hinv. revert Hinv.
  induction Hrun as [s|s s' s'' Hstep _ IH]; [trivial|].
  intros Hinv. apply IH. eapply mt_inv_step; eauto.
Qed.

(** A run in which the tasks finish one after the other. *)
Lemma mt_run_tasks (done_files todo : list string) (done_tasks : list task)
    (c : orchestrator) :
  fileList = done_files ++ todo -> length done_tasks = length done_files ->
  rtc (mt_step fs fileList sortType)
    {| tasks := done_tasks ++ replicate (length todo) Reading; caller := c |}
    {| tasks := done_tasks ++ map (fun file => Returned (ReadFile fs file)) todo;
       caller := c |}.
Proof.
  revert done_files done_tasks.
  induction todo as [|file todo IH]; intros done_files done_tasks Hfiles Hlen.
  { simpl. reflexivity. }
  set (s0 := {| tasks := done_tasks ++ replicate (length (file :: todo)) Reading;
                caller := c |}).
  assert (fileList !! length done_tasks = Some file) as Hfile.
  { rewrite Hfiles. now apply list_lookup_middle. }
  eapply rtc_l.
  { apply (step_read fs fileList sortType s0 (length done_tasks) file Hfile).
    simpl. now apply list_lookup_middle. }
  simpl. rewrite insert_app_r_alt, Nat.sub_diag by lia. simpl.
  set (s1 := {| tasks := done_tasks ++ Flagged (ReadFile fs file)
                           :: replicate (length todo) Reading;
                caller := c |}).
  eapply rtc_l.
  { apply (step_return fs fileList sortType s1 (length done_tasks) (ReadFile fs file)).
    simpl. now apply list_lookup_middle. }
  simpl. rewrite insert_app_r_alt, Nat.sub_diag by lia. simpl.
  rewrite (cons_middle _ done_tasks (replicate (length todo) Reading)).
  rewrite (cons_middle _ done_tasks (map _ todo)), !app_assoc.
  apply (IH (done_files ++ [file])).
  - now rewrite <- app_assoc.
  - rewrite !length_app. simpl. lia.
Qed.

(** A run in which the caller collects the futures of finished tasks. *)
Lemma mt_run_gather (done_files todo : list string) (finalList : vec) :
  fileList = done_files ++ todo ->
  let ts := map (fun file => Returned (ReadFile fs file)) fileList in
  rtc (mt_step fs fileList sortType)
    {| tasks := ts; caller := Gathering (length done_files) finalList |}
    {| tasks := ts; caller := Gathering (length fileList) (finalList ++ all_lines fs todo) |}.
Proof.
  intros Hfiles ts. revert done_files finalList Hfiles.
  induction todo as [|file todo IH]; intros done_files finalList Hfiles.
  { rewrite Hfiles, !app_nil_r. reflexivity. }
  eapply rtc_l.
  { apply (step_get fs fileList sortType
             {| tasks := ts; caller := Gathering (length done_files) finalList |}
             (length done_files) finalList (ReadFile fs file)); [reflexivity|].
    simpl. unfold ts. rewrite list_lookup_fmap, Hfiles.
    now rewrite list_lookup_middle. }
  simpl.
  replace (S (length done_files)) with (length (done_files ++ [file]))
    by (rewrite length_app; simpl; lia).
  replace (finalList ++ all_lines fs (file :: todo))
    with ((finalList ++ ReadFile fs file) ++ all_lines fs todo)
    by (unfold all_lines; simpl; now rewrite app_assoc).
  apply IH. now rewrite <- app_assoc.
Qed.

Lemma mt_run_to_end :
  multiThreading fs fileList sortType (Sort (all_lines fs fileList) sortType).
Proof.
  set (ts := map (fun file => Returned (ReadFile fs file)) fileList).
  exists {| tasks := ts; caller := Finished (Sort (all_lines fs fileList) sortType) |}.
  split; [|reflexivity].
  transitivity {| tasks := ts; caller := Polling |}.
  { apply (mt_run_tasks [] fileList [] Polling); reflexivity. }
  eapply rtc_l.
  { apply step_poll_done; [reflexivity|]. simpl. unfold ts.
    apply forallb_forall. intros t Ht. apply in_map_iff in Ht as (file & <- & _).
    reflexivity. }
  simpl. etransitivity.
  { apply (mt_run_gather [] fileList []). reflexivity. }
  simpl. apply rtc_once.
  apply (step_sort fs fileList sortType
           {| tasks := ts; caller := Gathering (length fileList) (all_lines fs fileList) |}
           (length fileList) (all_lines fs fileList)); [reflexivity|].
  simpl. unfold ts. now rewrite length_map.
Qed.
End multiThreading.

(** C3.  For the same files and the same policy the two strategies hand
    over the same sorted list: some interleaving of [multiThreading] ends
    with the output of [singleThreading], and every interleaving that ends
    does so with that output. *)
Theorem multiThreading_same_output (fs : file_system) (fileList : list string)
    (sortType : ESortType) :
  multiThreading fs fileList sortType (singleThreading fs fileList sortType)
  /\ forall output : outcome vec,
       multiThreading fs fileList sortType output ->
       output = singleThreading fs fileList sortType.
Proof.
  unfold singleThreading. rewrite singleThreading_loop_all_lines, app_nil_l.
  split; [apply mt_run_to_end|].
  intros output (s & Hrun & Hend).
  apply mt_inv_reachable in Hrun as [_ Hcaller].
  now rewrite Hend in Hcaller.
Qed.

(** * Further properties of the code *)

(** ** The sort on every list *)

Lemma comparer_never_faults (P : ESortType) (a b : string) :
  IsFirstAboveSecond (comparer P) a b <> Fault.
Proof.
  destruct (answers_dec P a b) as [H|H].
  - now rewrite comparer_answers.
  - now rewrite comparer_silent.
Qed.

Lemma merge_lists_never_faults (cmp : IStringComparer) (us ls : list string) :
  (forall a b : string, IsFirstAboveSecond cmp a b <> Fault) ->
  merge_lists cmp us ls <> Fault.
Proof.
  intros Hcmp. revert ls; induction us as [|u us IHu]; intros ls.
  { now rewrite merge_lists_nil_l. }
  induction ls as [|l ls IHl].
  { now rewrite merge_lists_nil_r. }
  rewrite merge_lists_cons. specialize (Hcmp u l). specialize (IHu (l :: ls)).
  destruct (IsFirstAboveSecond cmp u l) as [[|]| |]; cbn [bind]; try congruence.
  - now destruct (merge_lists cmp us (l :: ls)).
  - now destruct (merge_lists cmp (u :: us) ls).
Qed.

Lemma sort_list_never_faults (cmp : IStringComparer) (fuel : nat) (X : list string) :
  (forall a b : string, IsFirstAboveSecond cmp a b <> Fault) ->
  sort_list fuel cmp X <> Fault.
Proof.
  intros Hcmp. revert X; induction fuel as [|fuel IH]; intros X; [discriminate|].
  rewrite sort_list_S. destruct (1 <? length X)%nat; [|discriminate]. cbv zeta.
  pose proof (IH (take (S ((length X - 1) / 2)) X)) as H1.
  pose proof (IH (drop (S ((length X - 1) / 2)) X)) as H2.
  destruct (sort_list fuel cmp (take (S ((length X - 1) / 2)) X)) as [o1| |];
    cbn [bind]; try congruence.
  destruct (sort_list fuel cmp (drop (S ((length X - 1) / 2)) X)) as [o2| |];
    cbn [bind]; try congruence.
  now apply merge_lists_never_faults.
Qed.

(** What [Sort] returns is the sorted first cells followed by the others. *)
Lemma Sort_Done (L : vec) (P : ESortType) (out : vec) :
  Sort L P = Done out ->
  exists sorted : vec,
    sort_list (sort_fuel L) (comparer P) (take (sort_range L) L) = Done sorted
    /\ out = sorted ++ drop (sort_range L) L.
Proof.
  rewrite Sort_spec. intros H. apply bind_Done in H as (sorted & Hs & [= <-]). eauto.
Qed.

Lemma Sort_Done_small (L : vec) (P : ESortType) (out : vec) :
  Z.of_nat (length L) <= 2147483648 -> Sort L P = Done out ->
  out ≡ₚ L /\ Sorted (answered_order P) out.
Proof.
  intros Hlen H. apply Sort_Done in H as (sorted & Hs & ->).
  rewrite sort_range_small in * by (unfold INT_MAX; lia).
  rewrite take_ge in Hs by lia. rewrite drop_all, app_nil_r. split.
  - exact (sort_list_Permutation _ _ _ _ Hs).
  - exact (sort_list_Sorted _ _ _ _ _ (answered_order_fits P) Hs).
Qed.

Lemma Sorted_sort_order (P : ESortType) (X : vec) :
  Sorted (answered_order P) X -> Sorted (sort_order P) X.
Proof. apply Sorted_weaken. now intros a b [H _]. Qed.

Lemma sort_order_refl (P : ESortType) (a : string) : sort_order P a a.
Proof.
  destruct (policy_cases P)
    as [(_ & _ & -> & _)|[(_ & _ & -> & _)|(_ & _ & _ & -> & _)]];
    unfold lex_le; now rewrite lex_compare_refl.
Qed.

(** The list sorted again, as a fact about [Sort]. *)
Lemma Sort_again (L : vec) (P : ESortType) (out : vec) :
  Sort L P = Done out -> Sort out P = Done out.
Proof.
  intros HL'. apply Sort_Done in HL' as (sorted & Hout & ->).
  pose proof (sort_range_le L) as Hle.
  pose proof (sort_fuel_enough L) as [Hpos Hfuel].
  assert (length sorted = sort_range L) as Hlen.
  { rewrite (sort_list_length _ _ _ _ Hout), length_take. lia. }
  assert (length (sorted ++ drop (sort_range L) L) = length L) as Hlen' by len_solve.
  rewrite Sort_spec. unfold sort_fuel at 1.
  rewrite (sort_range_length (sorted ++ drop (sort_range L) L) L) by assumption.
  rewrite (last_index_length (sorted ++ drop (sort_range L) L) L) by assumption.
  rewrite take_app_length', drop_app_length' by now symmetry.
  fold (sort_fuel L).
  rewrite (sort_list_sorted_again P _ _ _ _ Hout);
    [reflexivity|rewrite length_take; lia|assumption].
Qed.

(** X1.  Whatever the length of the list and the selector, a list that
    [MergeSortWrapper] returns is a permutation of its argument, of the
    same length. *)
Theorem Sort_returns_permutation (L : vec) (P : ESortType) (out : vec) :
  Sort L P = Done out -> out ≡ₚ L /\ length out = length L.
Proof.
  intros H. apply Sort_Done in H as (sorted & Hs & ->).
  assert (sorted ++ drop (sort_range L) L ≡ₚ L) as Hperm.
  { rewrite (sort_list_Permutation _ _ _ _ Hs). now rewrite take_drop. }
  split; [assumption|]. now apply Permutation_length.
Qed.

(** The theorem at a list of three strings under [AlphDesc]. *)
Lemma Sort_returns_permutation_witness :
  ["pear"; "fig"; "apple"] ≡ₚ ["fig"; "pear"; "apple"]
  /\ length ["pear"; "fig"; "apple"] = length ["fig"; "pear"; "apple"].
Proof.
  apply (Sort_returns_permutation ["fig"; "pear"; "apple"] AlphDesc).
  vm_compute. reflexivity.
Defined.

(** X2.  [MergeSortWrapper] never reads or writes outside a vector,
    whatever the list and the selector: either it returns a list, or one of
    its comparisons does not return. *)
Theorem Sort_stays_in_bounds (L : vec) (P : ESortType) :
  Sort L P = OutOfFuel \/ exists out : vec, Sort L P = Done out.
Proof.
  rewrite Sort_spec.
  pose proof (sort_list_never_faults (comparer P) (sort_fuel L)
                (take (sort_range L) L) (comparer_never_faults P)) as H.
  destruct (sort_list (sort_fuel L) (comparer P) (take (sort_range L) L)) as [out| |];
    cbn [bind]; [right; eauto|congruence|now left].
Qed.

(** X3.  A list of more than 2^31 and at most 2^32 + 1 strings is returned
    as it is: [size() - 1] is passed as an [int] that is not positive, and
    [MergeSort] does nothing. *)
Theorem Sort_oversized_list (L : vec) (P : ESortType) :
  2147483648 < Z.of_nat (length L) <= 4294967297 -> Sort L P = Done L.
Proof.
  intros Hlen. unfold Sort, MergeSortWrapper.
  destruct (select_comparer P) as [cerr cmp]. simpl snd.
  apply MergeSort_outside. revert Hlen.
  unfold last_index, vec_size, to_size_t, to_int.
  set (n := Z.of_nat (length L)). intros Hlen.
  rewrite (Z.mod_small (n - 1)) by lia.
  destruct (Z.eq_dec n 4294967297) as [->|Hne]; [reflexivity|].
  replace (n - 1 + 2147483648) with ((n - 1 - 2147483648) + 1 * 4294967296) by lia.
  rewrite Z.mod_add by lia. rewrite Z.mod_small by lia. lia.
Qed.

(** The theorem at a list of 2^31 + 1 strings. *)
Lemma Sort_oversized_list_witness : Sort giant_list AlphAsc = Done giant_list.
Proof.
  apply (Sort_oversized_list giant_list AlphAsc). rewrite giant_list_length. lia.
Defined.

(** X4.  The sorted list does not depend on the order of the input: two
    lists of at most 2^31 strings (shorter than 2^32 characters under the
    alphabetical policies) with the same strings as often are sorted to the
    same list. *)
Theorem Sort_input_order (L L' : vec) (P : ESortType) :
  L ≡ₚ L' -> Z.of_nat (length L) <= 2147483648 ->
  P = LastLetterAsc \/ Forall short L ->
  Sort L P = Sort L' P.
Proof.
  intros Hperm Hlen Hshort.
  assert (Z.of_nat (length L') <= 2147483648) as Hlen'
      by now rewrite <- (Permutation_length Hperm).
  destruct (Sort_returns L P Hshort) as [out Hout].
  destruct (Sort_returns L' P (comparable_Permutation P L L' Hperm Hshort))
    as [out' Hout'].
  rewrite Hout, Hout'. f_equal.
  destruct (Sort_Done_small L P out Hlen Hout) as [Hp Hs].
  destruct (Sort_Done_small L' P out' Hlen' Hout') as [Hp' Hs'].
  apply (Sorted_unique (sort_order P)); [now apply Sorted_sort_order..|].
  now rewrite Hp, Hp'.
Qed.

(** The theorem at two orders of three strings. *)
Lemma Sort_input_order_witness :
  Sort ["b"; "c"; "a"] LastLetterAsc = Sort ["c"; "a"; "b"] LastLetterAsc.
Proof.
  apply (Sort_input_order ["b"; "c"; "a"] ["c"; "a"; "b"] LastLetterAsc).
  - change ["b"; "c"; "a"] with (["b"] ++ ["c"; "a"]).
    change ["c"; "a"; "b"] with (["c"; "a"] ++ ["b"]).
    apply Permutation_app_comm.
  - simpl. lia.
  - now left.
Defined.

(** X5.  Under [AlphDesc] the sorted list is the list sorted under
    [AlphAsc], reversed (lists of at most 2^31 strings shorter than 2^32
    characters). *)
Theorem Sort_AlphDesc_reverses (L : vec) :
  Z.of_nat (length L) <= 2147483648 -> Forall short L ->
  exists out : vec,
    Sort L AlphAsc = Done out /\ Sort L AlphDesc = Done (rev out).
Proof.
  intros Hlen Hshort.
  destruct (Sort_returns L AlphAsc (or_intror Hshort)) as [out Hout].
  destruct (Sort_returns L AlphDesc (or_intror Hshort)) as [out' Hout'].
  exists out. split; [assumption|]. rewrite Hout'. f_equal.
  destruct (Sort_Done_small L AlphAsc out Hlen Hout) as [Hp Hs].
  destruct (Sort_Done_small L AlphDesc out' Hlen Hout') as [Hp' Hs'].
  apply Sorted_sort_order in Hs. apply Sorted_sort_order in Hs'.
  apply (Sorted_unique (sort_order AlphDesc)); [assumption| |].
  - rewrite rev_alt. apply (Sorted_reverse (sort_order AlphAsc) out Hs).
  - rewrite Hp', <- Hp. apply Permutation_rev.
Qed.

(** The theorem at a list of three strings. *)
Lemma Sort_AlphDesc_reverses_witness :
  exists out : vec,
    Sort ["fig"; "pear"; "apple"] AlphAsc = Done out
    /\ Sort ["fig"; "pear"; "apple"] AlphDesc = Done (rev out).
Proof.
  apply (Sort_AlphDesc_reverses ["fig"; "pear"; "apple"]).
  - simpl. lia.
  - repeat constructor; unfold short, string_length; simpl; lia.
Defined.

Lemma Sorted_adjacent (R : relation string) (l : vec) :
  (forall (i : nat) (x y : string), l !! i = Some x -> l !! S i = Some y -> R x y) ->
  Sorted R l.
Proof.
  induction l as [|a l IH]; intros H; constructor.
  - apply IH. intros i x y Hx Hy. now apply (H (S i)).
  - destruct l as [|b l]; constructor. now apply (H 0%nat).
Qed.

(** X6.  A list in which no cell is above a different string in the cell
    before it is returned as it is (lists of at most 2^31 strings, shorter
    than 2^32 characters under the alphabetical policies). *)
Theorem Sort_sorted_input (L : vec) (P : ESortType) :
  Z.of_nat (length L) <= 2147483648 ->
  P = LastLetterAsc \/ Forall short L ->
  (forall (i : nat) (x y : string),
      L !! i = Some x -> L !! S i = Some y -> x <> y ->
      IsFirstAboveSecond (comparer P) y x = Done false) ->
  Sort L P = Done L.
Proof.
  intros Hlen Hshort Hsorted.
  destruct (Sort_returns L P Hshort) as [out Hout]. rewrite Hout. f_equal.
  destruct (Sort_Done_small L P out Hlen Hout) as [Hp Hs].
  apply (Sorted_unique (sort_order P)); [now apply Sorted_sort_order| |assumption].
  apply Sorted_adjacent. intros i x y Hx Hy.
  destruct (String.string_dec x y) as [->|Hne]; [apply sort_order_refl|].
  specialize (Hsorted i x y Hx Hy Hne).
  apply comparer_Done in Hsorted as [_ Hv]. now apply verdict_order in Hv.
Qed.

(** The theorem at a list of three strings under [LastLetterAsc]. *)
Lemma Sort_sorted_input_witness :
  Sort ["a"; "a"; "ab"] LastLetterAsc = Done ["a"; "a"; "ab"].
Proof.
  apply (Sort_sorted_input ["a"; "a"; "ab"] LastLetterAsc).
  - simpl. lia.
  - now left.
  - intros [|[|[|i]]] x y Hx Hy Hne; simpl in Hx, Hy;
      try discriminate; injection Hx as <-; injection Hy as <-;
      [now destruct Hne|reflexivity].
Defined.

(** ** One merge step *)

(** The cells [first .. last] of a vector. *)
Definition slice (v : vec) (first last : nat) : vec :=
  take (S last - first) (drop first v).

Lemma take_add_app (l : vec) (a b : nat) :
  take (a + b) l = take a l ++ take b (drop a l).
Proof.
  revert l; induction a as [|a IH]; intros [|x l]; simpl;
    rewrite ?take_nil; try reflexivity.
  now rewrite IH.
Qed.

Lemma slice_splice (v m : vec) (upper lower : nat) :
  (upper <= length v)%nat -> length m = (S lower - upper)%nat ->
  slice (take upper v ++ m ++ drop (S lower) v) upper lower = m.
Proof.
  intros Hupper Hm. unfold slice.
  rewrite drop_app_length' by (rewrite length_take; lia).
  now rewrite take_app_length'.
Qed.

(** X7.  [merge] on two sorted halves: for valid indices, the cells
    [upper .. lower] of the vector it returns are a permutation of those of
    its argument, and they are sorted for every relation the comparer's
    answers tell apart, if the cells [upper .. mid] and [mid + 1 .. lower]
    were. *)
Theorem merge_sorted_halves (R : relation string) (cmp : IStringComparer)
    (v v' : vec) (upper mid lower : nat) :
  fits R cmp ->
  (upper <= mid < lower)%nat -> (lower < length v)%nat -> Z.of_nat lower <= INT_MAX ->
  merge v (Z.of_nat upper) (Z.of_nat mid) (Z.of_nat lower) cmp = Done v' ->
  slice v' upper lower ≡ₚ slice v upper lower
  /\ (Sorted R (slice v upper mid) -> Sorted R (slice v (S mid) lower) ->
      Sorted R (slice v' upper lower)).
Proof.
  intros HR Hrange Hlen Hmax H. rewrite merge_range in H by assumption.
  apply bind_Done in H as (m & Hm & [= <-]).
  pose proof (merge_lists_Permutation _ _ _ _ Hm) as Hperm.
  assert (slice v upper lower = slice v upper mid ++ slice v (S mid) lower) as Hcut.
  { unfold slice. replace (S lower - upper)%nat with ((S mid - upper) + (lower - mid))%nat
      by lia.
    rewrite take_add_app, drop_drop. repeat f_equal; lia. }
  rewrite slice_splice.
  - split; [now rewrite Hcut|]. intros Hup Hlow.
    exact (merge_lists_Sorted cmp R HR _ _ _ Hm Hup Hlow).
  - lia.
  - rewrite (Permutation_length Hperm). len_solve.
Qed.

(** The theorem at a vector of four strings under [LastLetterAsc]. *)
Lemma merge_sorted_halves_witness :
  slice ["a"; "b"; "c"; "d"] 0 3 ≡ₚ slice ["a"; "c"; "b"; "d"] 0 3
  /\ (Sorted (answered_order LastLetterAsc) (slice ["a"; "c"; "b"; "d"] 0 1) ->
      Sorted (answered_order LastLetterAsc) (slice ["a"; "c"; "b"; "d"] 2 3) ->
      Sorted (answered_order LastLetterAsc) (slice ["a"; "b"; "c"; "d"] 0 3)).
Proof.
  apply (merge_sorted_halves (answered_order LastLetterAsc) (comparer LastLetterAsc)
           ["a"; "c"; "b"; "d"] ["a"; "b"; "c"; "d"] 0 1 3).
  - apply answered_order_fits.
  - lia.
  - simpl. lia.
  - unfold INT_MAX. lia.
  - vm_compute. reflexivity.
Defined.

(** ** The comparers on different strings *)

(** X8.  Of two different strings each comparer puts exactly one above the
    other (under the alphabetical policies, when one of the two is shorter
    than 2^32 characters). *)
Theorem comparers_total (P : ESortType) (a b : string) :
  a <> b -> P = LastLetterAsc \/ short a \/ short b ->
  (IsFirstAboveSecond (comparer P) a b = Done true
   /\ IsFirstAboveSecond (comparer P) b a = Done false)
  \/ (IsFirstAboveSecond (comparer P) a b = Done false
      /\ IsFirstAboveSecond (comparer P) b a = Done true).
Proof.
  intros Hne Hshort.
  assert (answers P a b) as Hab.
  { destruct Hshort as [->|Hshort]; [exact I|now apply answers_short]. }
  pose proof (answers_sym _ _ _ Hab) as Hba.
  rewrite !comparer_answers by assumption.
  destruct (verdict_order P a b) as [Ht Hf].
  destruct (verdict_order P b a) as [Ht' Hf'].
  destruct (verdict P a b), (verdict P b a); auto; exfalso; apply Hne;
    apply (anti_symm (sort_order P)); auto.
Qed.

(** The theorem at ["a"] and ["b"] under [AlphAsc]. *)
Lemma comparers_total_witness :
  (IsFirstAboveSecond (comparer AlphAsc) "a" "b" = Done true
   /\ IsFirstAboveSecond (comparer AlphAsc) "b" "a" = Done false)
  \/ (IsFirstAboveSecond (comparer AlphAsc) "a" "b" = Done false
      /\ IsFirstAboveSecond (comparer AlphAsc) "b" "a" = Done true).
Proof.
  apply (comparers_total AlphAsc "a" "b").
  - discriminate.
  - right. left. unfold short, string_length. simpl. lia.
Defined.

Lemma decided_common_prefix (n : nat) (p s t : list ascii) (c d : ascii) :
  (length p < n)%nat -> c <> d -> decided n (p ++ c :: s) (p ++ d :: t).
Proof.
  revert n; induction p as [|x p IH]; intros [|n] Hlen Hne; simpl in *; try lia.
  - now left.
  - right. apply IH; [lia|assumption].
Qed.

Lemma lex_compare_common_prefix (p s t : list ascii) (c d : ascii) :
  c <> d -> lex_compare (p ++ c :: s) (p ++ d :: t) = (char_val c ?= char_val d).
Proof.
  intros Hne. induction p as [|x p IH]; simpl.
  - destruct (Z.compare_spec (char_val c) (char_val d)) as [E|E|E]; try reflexivity.
    now apply char_val_inj in E.
  - now rewrite Z.compare_refl.
Qed.

(** X9.  The alphabetical comparers decide at the first position where the
    strings differ: after a common beginning of fewer than 2^32 characters,
    [AlphAsc] puts the string with the smaller character first and
    [AlphDesc] the one with the greater. *)
Theorem Alph_first_difference (p s t : string) (c d : ascii) :
  short p -> c <> d ->
  IsFirstAboveSecond AlphAscStrComp (p +:+ String c s) (p +:+ String d t)
  = Done (char_lt c d)
  /\ IsFirstAboveSecond AlphDescStrComp (p +:+ String c s) (p +:+ String d t)
     = Done (char_gt c d).
Proof.
  intros Hshort Hne. pose proof cursor_range_Z as Hrange.
  assert (decided cursor_range (chars (p +:+ String c s)) (chars (p +:+ String d t)))
    as Hdec.
  { rewrite !chars_app. change (chars (String ?x ?y)) with (x :: chars y).
    apply decided_common_prefix; [|assumption].
    unfold short, string_length in Hshort. lia. }
  rewrite AlphAsc_answers, AlphDesc_answers by assumption. clear Hdec.
  unfold lt_verdict, gt_verdict. rewrite !chars_app.
  change (chars (String ?x ?y)) with (x :: chars y).
  rewrite lex_compare_common_prefix by assumption.
  unfold char_lt, char_gt, Z.ltb. rewrite (Z.compare_antisym (char_val c) (char_val d)).
  destruct (char_val c ?= char_val d); split; reflexivity.
Qed.

(** The theorem at ["grApe"] and ["grass"]. *)
Lemma Alph_first_difference_witness :
  IsFirstAboveSecond AlphAscStrComp ("gr" +:+ String "A"%char "pe")
                                    ("gr" +:+ String "a"%char "ss")
  = Done (char_lt "A" "a")
  /\ IsFirstAboveSecond AlphDescStrComp ("gr" +:+ String "A"%char "pe")
                                        ("gr" +:+ String "a"%char "ss")
     = Done (char_gt "A" "a").
Proof.
  apply (Alph_first_difference "gr" "pe" "ss" "A"%char "a"%char).
  - unfold short, string_length. simpl. lia.
  - discriminate.
Defined.

(** ** Reading, writing and reading again *)

Lemma ReadFile_console_loop_spec (fileName : string) (lines : list string)
    (cerr : string) (listOut : vec) :
  ReadFile_console_loop fileName lines cerr listOut
  = (fold_left (fun text line => text +:+ rejected_message line fileName)
       (List.filter (fun line => negb (string_empty line) && ContainsSpecial line) lines)
       cerr,
     ReadFile_loop lines listOut).
Proof.
  revert cerr listOut; induction lines as [|line rest IH]; intros cerr listOut; simpl.
  - reflexivity.
  - destruct (string_empty line); simpl; [apply IH|].
    destruct (ContainsSpecial line); simpl; apply IH.
Qed.

(** X10.  The console of [ReadFile]: a file that does not open gives one
    message on [cout] and the empty list; for a file that opens, [cerr]
    receives the two-line message of every line that is not empty and is
    rejected, in the order of the file, and nothing for the other lines,
    and the list returned is that of [ReadFile]. *)
Theorem ReadFile_console_messages (fs : file_system) (fileName : string) :
  ReadFile_console fs fileName
  = match fs fileName with
    | None => (unable_message fileName, EmptyString, [])
    | Some lines =>
        (EmptyString,
         fold_left (fun text line => text +:+ rejected_message line fileName)
           (List.filter
              (fun line => negb (string_empty line) && ContainsSpecial line) lines)
           EmptyString,
         ReadFile fs fileName)
    end.
Proof.
  unfold ReadFile_console, ReadFile. destruct (fs fileName) as [lines|]; [|reflexivity].
  now rewrite ReadFile_console_loop_spec.
Qed.

Lemma getline_loop_line (l line rest : list ascii) :
  Forall (fun c => c <> newline) l ->
  getline_loop (l ++ newline :: rest) line
  = string_of_list_ascii (line ++ l) :: getline_loop rest [].
Proof.
  intros Hl. revert line; induction Hl as [|c l Hc Hl IH]; intros line; simpl.
  - now rewrite app_nil_r.
  - destruct (Ascii.eqb_spec c newline) as [E|_]; [contradiction|].
    rewrite IH. now rewrite <- app_assoc.
Qed.

Lemma chars_WriteAndPrint_loop (finalList : vec) (fileOut : string) :
  chars (WriteAndPrint_loop finalList fileOut)
  = chars fileOut ++ concat (map (fun i => chars i ++ [newline]) finalList).
Proof.
  revert fileOut; induction finalList as [|i rest IH]; intros fileOut; simpl.
  - now rewrite app_nil_r.
  - rewrite IH, !chars_app. change (chars endl) with [newline].
    now rewrite <- !app_assoc.
Qed.

Lemma getline_loop_lines (finalList : vec) :
  Forall (fun i => Forall (fun c => c <> newline) (chars i)) finalList ->
  getline_loop (concat (map (fun i => chars i ++ [newline]) finalList)) [] = finalList.
Proof.
  induction 1 as [|i rest Hi Hrest IH]; simpl; [reflexivity|].
  rewrite <- app_assoc. simpl. rewrite getline_loop_line by assumption.
  rewrite IH. simpl. f_equal. apply string_of_list_ascii_of_string.
Qed.

Lemma valid_line_no_newline (line : string) :
  IsValid line = true -> Forall (fun c => c <> newline) (chars line).
Proof.
  unfold IsValid, ContainsSpecial. rewrite andb_true_iff, !negb_true_iff.
  intros [_ H]. apply ContainsSpecial_loop_letters in H.
  eapply Forall_impl; [exact H|]. intros c Hc ->. revert Hc.
  unfold is_letter, newline. simpl. lia.
Qed.

Lemma filter_all_true (f : string -> bool) (l : vec) :
  Forall (fun x => f x = true) l -> List.filter f l = l.
Proof. induction 1 as [|x l Hx Hl IH]; simpl; [reflexivity|]. now rewrite Hx, IH. Qed.

(** The text [WriteAndPrint] writes, read by the loop of [ReadFile]. *)
Lemma file_lines_written (finalList : vec) :
  Forall (fun line => IsValid line = true) finalList ->
  file_lines (WriteAndPrint_loop finalList EmptyString) = finalList.
Proof.
  intros Hvalid. unfold file_lines. rewrite chars_WriteAndPrint_loop. simpl.
  apply getline_loop_lines. eapply Forall_impl; [exact Hvalid|].
  intros line. apply valid_line_no_newline.
Qed.

Lemma ReadFile_valid_lines (fs : file_system) (fileName : string) (lines : vec) :
  fs fileName = Some lines -> Forall (fun line => IsValid line = true) lines ->
  ReadFile fs fileName = lines.
Proof.
  intros Hfs Hvalid. unfold ReadFile. rewrite Hfs, ReadFile_loop_filter. simpl.
  now apply filter_all_true.
Qed.

Lemma ReadFile_returns_valid (fs : file_system) (fileName : string) :
  Forall (fun line => IsValid line = true) (ReadFile fs fileName).
Proof.
  unfold ReadFile. destruct (fs fileName) as [lines|]; [|constructor].
  rewrite ReadFile_loop_filter. simpl. apply List.Forall_forall. intros line Hin.
  now apply filter_In in Hin as [_ Hin].
Qed.

Lemma open_files_written (d : disk) (finalList : vec) (outputName : string)
    (clockCounter : Z) :
  open_files (snd (WriteAndPrint true d finalList outputName clockCounter))
             (output_path outputName)
  = Some (file_lines (WriteAndPrint_loop finalList EmptyString)).
Proof. unfold open_files, WriteAndPrint. cbn [snd]. now rewrite String.eqb_refl. Qed.

Lemma WriteAndPrint_ReadFile_aux (d : disk) (finalList : vec) (outputName : string)
    (clockCounter : Z) :
  Forall (fun line => IsValid line = true) finalList ->
  ReadFile (open_files (snd (WriteAndPrint true d finalList outputName clockCounter)))
           (output_path outputName)
  = finalList.
Proof.
  intros Hvalid. apply ReadFile_valid_lines.
  - rewrite open_files_written. now rewrite file_lines_written.
  - assumption.
Qed.

(** X11.  Writing and reading back: when the output file opens, [ReadFile]
    on the file [WriteAndPrint] wrote for a list of lines that pass the
    validator returns that list. *)
Theorem WriteAndPrint_ReadFile (d : disk) (finalList : vec) (outputName : string)
    (clockCounter : Z) :
  Forall (fun line => IsValid line = true) finalList ->
  ReadFile (open_files (snd (WriteAndPrint true d finalList outputName clockCounter)))
           (output_path outputName)
  = finalList.
Proof. apply WriteAndPrint_ReadFile_aux. Qed.

(** The theorem at a list of two lines. *)
Lemma WriteAndPrint_ReadFile_witness :
  ReadFile (open_files (snd (WriteAndPrint true (fun _ => None) ["Hello"; "world"]
                               "out" 12)))
           (output_path "out")
  = ["Hello"; "world"].
Proof.
  apply (WriteAndPrint_ReadFile (fun _ => None) ["Hello"; "world"] "out" 12).
  repeat constructor.
Defined.




(** ** [singleThreading] from the files to the output file *)

Lemma all_lines_valid (fs : file_system) (fileList : list string) :
  Forall (fun line => IsValid line = true) (all_lines fs fileList).
Proof.
  unfold all_lines. induction fileList as [|file rest IH]; simpl; [constructor|].
  apply Forall_app. split; [apply ReadFile_returns_valid|assumption].
Qed.

Lemma all_lines_Permutation (fs : file_system) (fileList fileList' : list string) :
  fileList ≡ₚ fileList' -> all_lines fs fileList ≡ₚ all_lines fs fileList'.
Proof.
  unfold all_lines. induction 1 as [|x l l' H IH|x y l|l l' l'' H IH H' IH']; simpl.
  - reflexivity.
  - now rewrite IH.
  - rewrite !app_assoc. f_equiv. apply Permutation_app_comm.
  - now rewrite IH.
Qed.

Lemma all_lines_single (fs : file_system) (file : string) :
  all_lines fs [file] = ReadFile fs file.
Proof. unfold all_lines. simpl. apply app_nil_r. Qed.

Lemma singleThreading_all_lines (fs : file_system) (fileList : list string)
    (sortType : ESortType) :
  singleThreading fs fileList sortType = Sort (all_lines fs fileList) sortType.
Proof. unfold singleThreading. now rewrite singleThreading_loop_all_lines, app_nil_l. Qed.

Lemma Sort_Done_Permutation (L : vec) (P : ESortType) (out : vec) :
  Sort L P = Done out -> out ≡ₚ L.
Proof.
  intros H. apply Sort_Done in H as (sorted & Hs & ->).
  rewrite (sort_list_Permutation _ _ _ _ Hs). now rewrite take_drop.
Qed.

Lemma Sort_Permutation_eq (L L' : vec) (P : ESortType) :
  L ≡ₚ L' -> Z.of_nat (length L) <= 2147483648 -> comparable P L ->
  Sort L P = Sort L' P.
Proof.
  intros Hperm Hlen Hshort.
  assert (Z.of_nat (length L') <= 2147483648) as Hlen'
      by now rewrite <- (Permutation_length Hperm).
  destruct (Sort_returns L P Hshort) as [out Hout].
  destruct (Sort_returns L' P (comparable_Permutation P L L' Hperm Hshort))
    as [out' Hout'].
  rewrite Hout, Hout'. f_equal.
  destruct (Sort_Done_small L P out Hlen Hout) as [Hp Hs].
  destruct (Sort_Done_small L' P out' Hlen' Hout') as [Hp' Hs'].
  apply (Sorted_unique (sort_order P)); [now apply Sorted_sort_order..|].
  now rewrite Hp, Hp'.
Qed.

(** X13.  The list [singleThreading] hands to [WriteAndPrint] holds each
    line of each file that is not empty and has no special character, as
    often as the files do, and nothing else. *)
Theorem singleThreading_lines (fs : file_system) (fileList : list string)
    (sortType : ESortType) (finalList : vec) :
  singleThreading fs fileList sortType = Done finalList ->
  finalList
    ≡ₚ concat (map (fun file => List.filter IsValid (default [] (fs file))) fileList)
  /\ Forall (fun line => IsValid line = true) finalList.
Proof.
  rewrite singleThreading_all_lines. intros H. apply Sort_Done_Permutation in H.
  split.
  - rewrite H. unfold all_lines.
    assert (map (ReadFile fs) fileList
            = map (fun file => List.filter IsValid (default [] (fs file))) fileList)
      as ->; [|reflexivity].
    apply map_ext. intros file. unfold ReadFile.
    destruct (fs file) as [lines|]; [|reflexivity]. apply ReadFile_loop_filter.
  - rewrite H. apply all_lines_valid.
Qed.

(** The theorem at two files, one of them missing. *)
Lemma singleThreading_lines_witness :
  ["Hello"; "world"]
    ≡ₚ concat (map (fun file =>
                     List.filter IsValid
                       (default []
                          ((fun name => if String.eqb name "in" then
                                          Some ["world"; "a1"; EmptyString; "Hello"]
                                        else None) file)))
                 ["in"; "missing"])
  /\ Forall (fun line => IsValid line = true) ["Hello"; "world"].
Proof.
  apply (singleThreading_lines
           (fun name => if String.eqb name "in" then
                          Some ["world"; "a1"; EmptyString; "Hello"]
                        else None)
           ["in"; "missing"] AlphAsc ["Hello"; "world"]).
  vm_compute. reflexivity.
Defined.

(** X14.  The output of [singleThreading] does not depend on the order of
    the file list (at most 2^31 lines in all, shorter than 2^32 characters
    under the alphabetical policies). *)
Theorem singleThreading_file_order (fs : file_system) (fileList fileList' : list string)
    (sortType : ESortType) :
  fileList ≡ₚ fileList' ->
  Z.of_nat (length (all_lines fs fileList)) <= 2147483648 ->
  sortType = LastLetterAsc \/ Forall short (all_lines fs fileList) ->
  singleThreading fs fileList sortType = singleThreading fs fileList' sortType.
Proof.
  intros Hperm Hlen Hshort. rewrite !singleThreading_all_lines.
  apply Sort_Permutation_eq; [now apply all_lines_Permutation|assumption..].
Qed.

(** The theorem at two files in both orders. *)
Lemma singleThreading_file_order_witness :
  singleThreading (fun name => Some [name; "b"]) ["c"; "a"] AlphAsc
  = singleThreading (fun name => Some [name; "b"]) ["a"; "c"] AlphAsc.
Proof.
  apply (singleThreading_file_order (fun name => Some [name; "b"]) ["c"; "a"] ["a"; "c"]
           AlphAsc).
  - apply perm_swap.
  - simpl. lia.
  - right. repeat constructor; unfold short, string_length; simpl; lia.
Defined.

(** X15.  The program run on its own output file writes the same file
    again: after a run of [singleThreading] whose output file opened, a
    second run with that file as its only input, under the same policy,
    returns and writes the text the first run wrote. *)
Theorem singleThreading_output_again (d d' : disk) (fileList : list string)
    (sortType : ESortType) (outputName outputName' cout : string)
    (clockCounter clockCounter' : Z) :
  singleThreading_output true d fileList sortType outputName clockCounter
  = Done (cout, d') ->
  exists (cout' : string) (d'' : disk),
    singleThreading_output true d' [output_path outputName] sortType outputName'
                           clockCounter'
    = Done (cout', d'')
    /\ d'' (output_path outputName') = d' (output_path outputName).
Proof.
  unfold singleThreading_output. intros H.
  apply bind_Done in H as (finalList & Hfinal & H).
  assert (d' = snd (WriteAndPrint true d finalList outputName clockCounter)) as ->.
  { assert (WriteAndPrint true d finalList outputName clockCounter = (cout, d')) as E
        by congruence.
    now rewrite E. }
  clear H. pose proof Hfinal as Hsorted. rewrite singleThreading_all_lines in Hsorted.
  assert (Forall (fun line => IsValid line = true) finalList) as Hvalid.
  { rewrite (Sort_Done_Permutation _ _ _ Hsorted). apply all_lines_valid. }
  rewrite singleThreading_all_lines, all_lines_single.
  rewrite (WriteAndPrint_ReadFile_aux d finalList outputName clockCounter Hvalid).
  rewrite (Sort_again _ _ _ Hsorted). cbn [bind].
  eexists _, _. split; [reflexivity|].
  unfold WriteAndPrint. cbn [snd]. now rewrite !String.eqb_refl.
Qed.

(** The theorem at a run on one file of two lines. *)
Lemma singleThreading_output_again_witness :
  exists (cout' : string) (d'' : disk),
    singleThreading_output true
      (snd (WriteAndPrint true (fun _ => Some (WriteAndPrint_loop ["b"; "a"] EmptyString))
              ["a"; "b"] "out" 5))
      [output_path "out"] LastLetterAsc "again" 7
    = Done (cout', d'')
    /\ d'' (output_path "again")
       = snd (WriteAndPrint true (fun _ => Some (WriteAndPrint_loop ["b"; "a"] EmptyString))
                ["a"; "b"] "out" 5)
           (output_path "out").
Proof.
  apply (singleThreading_output_again
           (fun _ => Some (WriteAndPrint_loop ["b"; "a"] EmptyString))
           (snd (WriteAndPrint true
                   (fun _ => Some (WriteAndPrint_loop ["b"; "a"] EmptyString))
                   ["a"; "b"] "out" 5))
           ["in"] LastLetterAsc "out" "again"
           (fst (WriteAndPrint true
                   (fun _ => Some (WriteAndPrint_loop ["b"; "a"] EmptyString))
                   ["a"; "b"] "out" 5))
           5 7).
  reflexivity.
Defined.

(** ** The threads of [multiThreading] *)

(** What holds of the caller once it has left the polling loop: every task
    has set its flag, and the futures collected are among those started. *)
Definition mt_collecting (s : mt_state) : Prop :=
  match caller s with
  | Polling => True
  | Gathering next _ =>
      Forall (fun t => done_flag t = true) (tasks s) /\ (next <= length (tasks s))%nat
  | Finished _ => Forall (fun t => done_flag t = true) (tasks s)
  end.

Lemma forallb_done_flag (ts : list task) :
  forallb done_flag ts = true -> Forall (fun t => done_flag t = true) ts.
Proof. intros H. apply List.Forall_forall. now apply forallb_forall. Qed.

Lemma forallb_false_lookup (ts : list task) :
  forallb done_flag ts = false -> exists i : nat, ts !! i = Some Reading.
Proof.
  induction ts as [|t ts IH]; simpl; [discriminate|].
  destruct t; simpl.
  - intros _. now exists 0%nat.
  - intros H. destruct (IH H) as [i Hi]. now exists (S i).
  - intros H. destruct (IH H) as [i Hi]. now exists (S i).
Qed.

Section mt_threads.
Context (fs : file_system) (fileList : list string) (sortType : ESortType).

Lemma mt_collecting_step (s s' : mt_state) :
  mt_collecting s -> mt_step fs fileList sortType s s' -> mt_collecting s'.
Proof.
  unfold mt_collecting. intros Hinv Hstep.
  destruct Hstep as [s i file Hfile Ht|s i result Ht|s Hc Hf|s Hc Hf
                    |s next finalList result Hc Ht|s next finalList Hc Hn]; simpl.
  - destruct (caller s) as [|next finalList|output]; [trivial| |].
    + destruct Hinv as [Hinv _]. now pose proof (Forall_lookup_1 _ _ _ _ Hinv Ht).
    + now pose proof (Forall_lookup_1 _ _ _ _ Hinv Ht).
  - destruct (caller s) as [|next finalList|output]; [trivial| |].
    + destruct Hinv as [Hinv Hnext]. rewrite length_insert.
      split; [now apply Forall_insert|assumption].
    + now apply Forall_insert.
  - assumption.
  - split; [now apply forallb_done_flag|lia].
  - rewrite Hc in Hinv. destruct Hinv as [Hinv _].
    split; [assumption|]. now apply lookup_lt_Some in Ht.
  - rewrite Hc in Hinv. apply Hinv.
Qed.

Lemma mt_collecting_reachable (s : mt_state) :
  rtc (mt_step fs fileList sortType) (mt_init fileList) s -> mt_collecting s.
Proof.
  intros Hrun. assert (mt_collecting (mt_init fileList)) as Hinv by exact I.
  revert Hinv. induction Hrun as [s|s s' s'' Hstep _ IH]; [trivial|].
  intros Hinv. apply IH. eapply mt_collecting_step; eauto.
Qed.
End mt_threads.

(** X16.  In every interleaving of [multiThreading], when the caller
    collects the futures every task has read its file and set its flag, and
    what the caller has collected from the first [next] futures is the lines
    of the first [next] files, in the order of the list. *)
Theorem multiThreading_collects_in_order (fs : file_system) (fileList : list string)
    (sortType : ESortType) (s : mt_state) (next : nat) (finalList : vec) :
  rtc (mt_step fs fileList sortType) (mt_init fileList) s ->
  caller s = Gathering next finalList ->
  Forall (fun t => done_flag t = true) (tasks s)
  /\ (next <= length fileList)%nat
  /\ finalList = all_lines fs (take next fileList).
Proof.
  intros Hrun Hc.
  pose proof (mt_collecting_reachable fs fileList sortType s Hrun) as Hcol.
  pose proof (mt_inv_reachable fs fileList sortType s Hrun) as [Htasks Hinv].
  unfold mt_collecting in Hcol. rewrite Hc in Hcol, Hinv.
  destruct Hcol as [Hflags Hnext].
  rewrite (Forall2_length _ _ _ Htasks). auto.
Qed.

(** The theorem after the only future of a run on one file is collected. *)
Lemma multiThreading_collects_in_order_witness :
  Forall (fun t => done_flag t = true) [Returned ["x"]]
  /\ (1 <= length ["f"])%nat
  /\ ["x"] = all_lines (fun _ => Some ["x"]) (take 1 ["f"]).
Proof.
  apply (multiThreading_collects_in_order (fun _ => Some ["x"]) ["f"] AlphAsc
           {| tasks := [Returned ["x"]]; caller := Gathering 1 ["x"] |} 1 ["x"]);
    [|reflexivity].
  eapply rtc_l.
  { apply (step_read _ _ _ (mt_init ["f"]) 0 "f"); reflexivity. }
  eapply rtc_l.
  { apply (step_return _ _ _ _ 0 ["x"]). reflexivity. }
  eapply rtc_l.
  { apply step_poll_done; reflexivity. }
  eapply rtc_l.
  { apply (step_get _ _ _ _ 0 [] ["x"]); reflexivity. }
  apply rtc_refl.
Defined.

(** X17.  [multiThreading] is never stuck: in every state an interleaving
    reaches, the caller has finished or some thread can take a step that
    changes the state (a task reads or returns, or the caller leaves the
    polling loop, collects a future or sorts). *)
Theorem multiThreading_never_stuck (fs : file_system) (fileList : list string)
    (sortType : ESortType) (s : mt_state) :
  rtc (mt_step fs fileList sortType) (mt_init fileList) s ->
  (exists output : outcome vec, caller s = Finished output)
  \/ exists s' : mt_state, mt_step fs fileList sortType s s' /\ s' <> s.
Proof.
  intros Hrun.
  pose proof (mt_collecting_reachable fs fileList sortType s Hrun) as Hcol.
  pose proof (mt_inv_reachable fs fileList sortType s Hrun) as [Htasks _].
  unfold mt_collecting in Hcol.
  destruct (caller s) as [|next finalList|output] eqn:Hc; [| |left; eauto]; right.
  - destruct (forallb done_flag (tasks s)) eqn:Hflags.
    + eexists. split; [now apply step_poll_done|].
      intros E. apply (f_equal caller) in E. simpl in E. congruence.
    + destruct (forallb_false_lookup _ Hflags) as [i Hi].
      destruct (Forall2_lookup_r _ _ _ _ _ Htasks Hi) as (file & Hfile & _).
      eexists. split; [exact (step_read fs fileList sortType s i file Hfile Hi)|].
      intros E. apply (f_equal (fun st => tasks st !! i)) in E. simpl in E.
      rewrite list_lookup_insert_eq in E by (now apply lookup_lt_Some in Hi).
      congruence.
  - destruct Hcol as [Hflags Hnext].
    destruct (Nat.eq_dec next (length (tasks s))) as [Hend|Hmore].
    + eexists. split; [exact (step_sort fs fileList sortType s next finalList Hc Hend)|].
      intros E. apply (f_equal caller) in E. simpl in E. congruence.
    + destruct (lookup_lt_is_Some_2 (tasks s) next) as [t Ht]; [lia|].
      pose proof (Forall_lookup_1 _ _ _ _ Hflags Ht) as Hflag.
      destruct t as [|result|result]; [discriminate| |].
      * eexists. split; [exact (step_return fs fileList sortType s next result Ht)|].
        intros E. apply (f_equal (fun st => tasks st !! next)) in E. simpl in E.
        rewrite list_lookup_insert_eq in E by lia. congruence.
      * eexists.
        split; [exact (step_get fs fileList sortType s next finalList result Hc Ht)|].
        intros E. apply (f_equal caller) in E. simpl in E. rewrite Hc in E.
        injection E as E _. lia.
Qed.

(** The theorem at the start of a run on one file. *)
Lemma multiThreading_never_stuck_witness :
  (exists output : outcome vec, caller (mt_init ["f"]) = Finished output)
  \/ exists s' : mt_state,
       mt_step (fun _ => Some ["x"]) ["f"] AlphAsc (mt_init ["f"]) s'
       /\ s' <> mt_init ["f"].
Proof.
  apply (multiThreading_never_stuck (fun _ => Some ["x"]) ["f"] AlphAsc (mt_init ["f"])).
  apply rtc_refl.
Defined.

(** The steps a task still has to take, and those of the caller. *)
Definition task_work (t : task) : nat :=
  match t with
  | Reading => 2
  | Flagged _ => 1
  | Returned _ => 0
  end.

Definition mt_work (s : mt_state) : nat :=
  sum_list (map task_work (tasks s))
  + match caller s with
    | Polling => length (tasks s) + 2
    | Gathering next _ => length (tasks s) - next + 1
    | Finished _ => 0
    end.

Lemma task_work_insert (ts : list task) (i : nat) (t t' : task) :
  ts !! i = Some t ->
  (sum_list (map task_work (<[i := t']> ts)) + task_work t
   = sum_list (map task_work ts) + task_work t')%nat.
Proof.
  revert i; induction ts as [|x ts IH]; intros [|i] H; simpl in *; try discriminate.
  - injection H as ->. lia.
  - specialize (IH i H). lia.
Qed.

(** X18.  [multiThreading] ends: every step of a thread, other than the
    caller finding a flag not set and polling again, lowers a count of the
    steps left, which is 3 n + 2 at the start of a run on n files. *)
Theorem multiThreading_steps_left (fs : file_system) (fileList : list string)
    (sortType : ESortType) (s s' : mt_state) :
  mt_step fs fileList sortType s s' ->
  (s' = s \/ (mt_work s' < mt_work s)%nat)
  /\ mt_work (mt_init fileList) = (3 * length fileList + 2)%nat.
Proof.
  intros Hstep. split.
  - unfold mt_work.
    destruct Hstep as [s i file Hfile Ht|s i result Ht|s Hc Hf|s Hc Hf
                      |s next finalList result Hc Ht|s next finalList Hc Hn]; simpl.
    + right. rewrite length_insert.
      pose proof (task_work_insert _ i _ (Flagged (ReadFile fs file)) Ht) as H.
      simpl in H. lia.
    + right. rewrite length_insert.
      pose proof (task_work_insert _ i _ (Returned result) Ht) as H.
      simpl in H. lia.
    + now left.
    + right. rewrite Hc. lia.
    + right. rewrite Hc. apply lookup_lt_Some in Ht. lia.
    + right. rewrite Hc. lia.
  - unfold mt_work, mt_init. simpl. rewrite length_replicate.
    induction (length fileList) as [|n IH]; simpl in *; lia.
Qed.

(** The theorem at the first step of a task on one file. *)
Lemma multiThreading_steps_left_witness :
  ({| tasks := [Flagged ["x"]]; caller := Polling |} = mt_init ["f"]
   \/ (mt_work {| tasks := [Flagged ["x"]]; caller := Polling |}
       < mt_work (mt_init ["f"]))%nat)
  /\ mt_work (mt_init ["f"]) = (3 * length ["f"] + 2)%nat.
Proof.
  apply (multiThreading_steps_left (fun _ => Some ["x"]) ["f"] AlphAsc
           (mt_init ["f"]) {| tasks := [Flagged ["x"]]; caller := Polling |}).
  exact (step_read (fun _ => Some ["x"]) ["f"] AlphAsc (mt_init ["f"]) 0 "f"
           eq_refl eq_refl).
Defined.

(** ** [MergeSort] on a range, and the comparers on reversed strings *)

(** X19.  [MergeSort] sorts the range it is given: for valid indices, the
    cells [upper .. lower] of the vector it returns are a permutation of
    those of its argument, sorted for every relation the comparer's answers
    tell apart. *)
Theorem MergeSort_sorts_range (R : relation string) (cmp : IStringComparer)
    (v v' : vec) (upper lower : nat) :
  fits R cmp ->
  (upper <= lower < length v)%nat -> Z.of_nat lower <= INT_MAX ->
  MergeSort v (Z.of_nat upper) (Z.of_nat lower) cmp = Done v' ->
  slice v' upper lower ≡ₚ slice v upper lower /\ Sorted R (slice v' upper lower).
Proof.
  intros HR Hrange Hmax H. rewrite MergeSort_range in H by assumption.
  apply bind_Done in H as (out & Hout & [= <-]).
  rewrite slice_splice.
  - split.
    + exact (sort_list_Permutation _ _ _ _ Hout).
    + exact (sort_list_Sorted _ _ _ _ _ HR Hout).
  - lia.
  - rewrite (sort_list_length _ _ _ _ Hout). len_solve.
Qed.

(** The theorem at the range [1 .. 3] of a vector of five strings. *)
Lemma MergeSort_sorts_range_witness :
  slice ["e"; "b"; "c"; "d"; "a"] 1 3 ≡ₚ slice ["e"; "d"; "c"; "b"; "a"] 1 3
  /\ Sorted (answered_order LastLetterAsc) (slice ["e"; "b"; "c"; "d"; "a"] 1 3).
Proof.
  apply (MergeSort_sorts_range (answered_order LastLetterAsc) (comparer LastLetterAsc)
           ["e"; "d"; "c"; "b"; "a"] ["e"; "b"; "c"; "d"; "a"] 1 3).
  - apply answered_order_fits.
  - simpl. lia.
  - unfold INT_MAX. lia.
  - vm_compute. reflexivity.
Defined.

(** A string read from its end. *)
Definition string_reverse (s : string) : string := string_of_list_ascii (rev (chars s)).

Lemma chars_string_reverse (s : string) : chars (string_reverse s) = rev (chars s).
Proof. apply list_ascii_of_string_of_list_ascii. Qed.

(** X20.  [LastLetterAscStrComp] is [AlphAscStrComp] on the strings read
    from their ends, except that it puts a string above itself (one of the
    two strings being shorter than 2^32 characters). *)
Theorem LastLetterAsc_reversed_AlphAsc (a b : string) :
  short a \/ short b ->
  IsFirstAboveSecond LastLetterAscStrComp a b
  = if String.eqb a b then Done true
    else IsFirstAboveSecond AlphAscStrComp (string_reverse a) (string_reverse b).
Proof.
  intros Hshort. pose proof cursor_range_Z as Hrange.
  rewrite LastLetterAsc_answers. unfold le_verdict.
  destruct (String.eqb_spec a b) as [->|Hne]; [now rewrite lex_compare_refl|].
  rewrite AlphAsc_answers.
  - unfold lt_verdict. rewrite !chars_string_reverse.
    destruct (lex_compare (rev (chars a)) (rev (chars b))) eqn:E; try reflexivity.
    apply lex_compare_eq, rev_chars_inj in E. contradiction.
  - rewrite !chars_string_reverse. unfold short, string_length in Hshort.
    destruct Hshort as [H|H]; [|apply decided_sym]; apply decided_short;
      rewrite length_rev; lia.
Qed.

(** The theorem at ["cat"] and ["bat"]. *)
Lemma LastLetterAsc_reversed_AlphAsc_witness :
  IsFirstAboveSecond LastLetterAscStrComp "cat" "bat"
  = if String.eqb "cat" "bat" then Done true
    else IsFirstAboveSecond AlphAscStrComp (string_reverse "cat") (string_reverse "bat").
Proof.
  apply (LastLetterAsc_reversed_AlphAsc "cat" "bat").
  left. unfold short, string_length. simpl. lia.
Defined.

(** ** [MergeSort] with a last index at or after the end of the vector *)

Lemma vec_at_beyond (v : vec) (i : nat) :
  (length v <= i)%nat -> vec_at v (Z.of_nat i) = Fault.
Proof.
  intros H. unfold vec_at. destruct (Z.ltb_spec (Z.of_nat i) 0); [reflexivity|].
  now rewrite Nat2Z.id, lookup_ge_None_2.
Qed.

Section beyond.
Context (cmp : IStringComparer).
Context (Hcmp : forall a b : string, returns (IsFirstAboveSecond cmp a b)).

Lemma MergeSort_rec_in_range (fuel : nat) (v : vec) (upper lower : nat) :
  (upper <= lower < length v)%nat -> Z.of_nat lower <= INT_MAX ->
  (lower - upper < fuel)%nat ->
  exists v1 : vec,
    MergeSort_rec fuel v (Z.of_nat upper) (Z.of_nat lower) cmp = Done v1
    /\ length v1 = length v.
Proof.
  intros Hrange Hmax Hfuel.
  set (A := take upper v). set (X := take (S lower - upper) (drop upper v)).
  set (D := drop (S lower) v).
  assert (A ++ X ++ D = v) as Hv.
  { unfold A, X, D. rewrite <- (take_drop upper v) at 4. f_equal.
    rewrite <- (take_drop (S lower - upper) (drop upper v)) at 2. f_equal.
    rewrite drop_drop. f_equal. lia. }
  assert (length A = upper) as HA by (unfold A; len_solve).
  assert (length X = (S lower - upper)%nat) as HX by (unfold X; len_solve).
  assert (MergeSort_rec fuel v (Z.of_nat upper) (Z.of_nat lower) cmp
          = let* out := sort_list fuel cmp X in Done (A ++ out ++ D)) as Heq.
  { rewrite <- Hv at 1.
    replace (Z.of_nat upper) with (Z.of_nat (length A)) by now rewrite HA.
    apply MergeSort_rec_spec; lia. }
  destruct (sort_list_returns cmp fuel X) as [out Hout];
    [lia|lia|now apply returns_everywhere|].
  rewrite Heq, Hout. cbn [bind]. eexists. split; [reflexivity|].
  rewrite <- Hv. rewrite !length_app, (sort_list_length _ _ _ _ Hout). lia.
Qed.

Lemma merge_beyond (v : vec) (upper mid : nat) :
  (upper <= mid)%nat -> (length v <= S mid)%nat -> Z.of_nat (S mid) <= INT_MAX ->
  (mid < length v)%nat \/ upper = mid ->
  merge v (Z.of_nat upper) (Z.of_nat mid) (Z.of_nat (S mid)) cmp = Fault.
Proof.
  intros Hupper Hlen Hmax Hcase. unfold merge.
  assert (INT_MAX = 2147483647) as Hint by reflexivity.
  replace (int_add (int_sub (Z.of_nat mid) (Z.of_nat upper)) 1)
    with (Z.of_nat (S mid - upper)) by (int_exact; lia).
  replace (int_sub (Z.of_nat (S mid)) (Z.of_nat mid)) with (Z.of_nat 1)
    by (int_exact; lia).
  replace (int_add (Z.of_nat mid) 1) with (Z.of_nat (S mid)) by (int_exact; lia).
  rewrite !vec_new_spec. cbn [bind]. rewrite !loop_fuel_of_nat.
  destruct (Nat.lt_ge_cases mid (length v)) as [Hin|Hout].
  - (* the upper half is inside, the one cell of the lower half is not *)
    set (A := take upper v). set (B := drop upper v).
    assert (A ++ B ++ [] = v) as Hv by (unfold A, B; now rewrite app_nil_r, take_drop).
    assert (length A = upper) as HA by (unfold A; len_solve).
    assert (length B = (S mid - upper)%nat) as HB by (unfold B; len_solve).
    rewrite <- Hv at 1.
    replace (Z.of_nat upper) with (Z.of_nat (length A)) at 1 by now rewrite HA.
    rewrite <- HB at 1 2. change 0 with (Z.of_nat 0).
    rewrite (fill_spec A B []);
      [|lia|lia|rewrite length_replicate; lia|lia|lia].
    cbn [bind]. rewrite fill_S. change (Z.of_nat 0 <? Z.of_nat 1) with true. cbv iota.
    replace (int_add (Z.of_nat (S mid)) (Z.of_nat 0)) with (Z.of_nat (S mid))
      by (int_exact; lia).
    now rewrite vec_at_beyond.
  - (* the one cell of the upper half is outside *)
    destruct Hcase as [Hcase|<-]; [lia|].
    replace (S upper - upper)%nat with 1%nat by lia.
    rewrite fill_S. change 0 with (Z.of_nat 0).
    change (Z.of_nat 0 <? Z.of_nat 1) with true. cbv iota.
    replace (int_add (Z.of_nat upper) (Z.of_nat 0)) with (Z.of_nat upper)
      by (int_exact; lia).
    now rewrite vec_at_beyond.
Qed.

Lemma MergeSort_rec_beyond (fuel : nat) :
  forall (v : vec) (upper lower : nat),
    (upper < lower)%nat -> (length v <= lower)%nat -> Z.of_nat lower <= INT_MAX ->
    (lower - upper < fuel)%nat ->
    MergeSort_rec fuel v (Z.of_nat upper) (Z.of_nat lower) cmp = Fault.
Proof.
  induction fuel as [|fuel IH]; intros v upper lower Hrange Hlen Hmax Hfuel; [lia|].
  assert (INT_MAX = 2147483647) as Hint by reflexivity.
  cbn [MergeSort_rec].
  destruct (Z.ltb_spec (Z.of_nat upper) (Z.of_nat lower)) as [_|Hge]; [|lia].
  set (half := ((lower - upper) / 2)%nat).
  assert (2 * half <= lower - upper < 2 * half + 2)%nat as Hhalf.
  { unfold half. pose proof (Nat.div_mod_eq (lower - upper) 2).
    pose proof (Nat.mod_upper_bound (lower - upper) 2). lia. }
  replace (int_add (Z.of_nat upper)
             (int_div (int_sub (Z.of_nat lower) (Z.of_nat upper)) 2))
    with (Z.of_nat (upper + half)).
  2:{ assert (Z.quot (Z.of_nat lower - Z.of_nat upper) 2 = Z.of_nat half) as Hq.
      { rewrite Z.quot_div_nonneg by lia.
        replace (Z.of_nat lower - Z.of_nat upper) with (Z.of_nat (lower - upper)) by lia.
        unfold half. now rewrite Nat2Z.inj_div. }
      unfold int_add, int_div, int_sub.
      rewrite (to_int_small (Z.of_nat lower - Z.of_nat upper))
        by (unfold is_int, INT_MIN; lia).
      rewrite Hq. int_exact. lia. }
  set (mid := (upper + half)%nat).
  assert (MergeSort_rec fuel v (Z.of_nat upper) (Z.of_nat mid) cmp = Fault
          \/ exists v1 : vec,
               MergeSort_rec fuel v (Z.of_nat upper) (Z.of_nat mid) cmp = Done v1
               /\ length v1 = length v
               /\ ((mid < length v)%nat \/ upper = mid)) as Hfirst.
  { destruct (Nat.lt_ge_cases mid (length v)) as [Hin|Hout].
    - right. destruct (MergeSort_rec_in_range fuel v upper mid) as (v1 & H1 & H2);
        [lia|lia|lia|]. eauto.
    - destruct (Nat.eq_dec upper mid) as [Hsame|Hdiff].
      + right. exists v. rewrite <- Hsame. destruct fuel as [|fuel']; [lia|].
        cbn [MergeSort_rec]. rewrite Z.ltb_irrefl. auto.
      + left. apply IH; lia. }
  destruct Hfirst as [->|(v1 & -> & Hv1 & Hcase)]; cbn [bind]; [reflexivity|].
  replace (int_add (Z.of_nat mid) 1) with (Z.of_nat (S mid)) by (int_exact; lia).
  destruct (Nat.eq_dec (S mid) lower) as [Hsame|Hdiff].
  - rewrite <- Hsame. destruct fuel as [|fuel']; [lia|].
    cbn [MergeSort_rec]. rewrite Z.ltb_irrefl. cbn [bind].
    apply merge_beyond; [lia|lia|lia|]. now rewrite Hv1.
  - rewrite IH; [reflexivity|lia|lia|lia|lia].
Qed.
End beyond.

(** X21.  The last index must be inside the vector: with a comparer that
    always returns, [MergeSort] called on a range [upper < lower] whose last
    index is at or after the end of the vector reads a cell that is not
    there. *)
Theorem MergeSort_beyond_the_end (cmp : IStringComparer) (v : vec) (upper lower : nat) :
  (forall a b : string, returns (IsFirstAboveSecond cmp a b)) ->
  (upper < lower)%nat -> (length v <= lower)%nat -> Z.of_nat lower <= INT_MAX ->
  MergeSort v (Z.of_nat upper) (Z.of_nat lower) cmp = Fault.
Proof.
  intros Hcmp Hrange Hlen Hmax. unfold MergeSort.
  apply MergeSort_rec_beyond; try assumption. unfold loop_fuel. lia.
Qed.

(** The theorem at a vector of two strings and the last index 2. *)
Lemma MergeSort_beyond_the_end_witness :
  MergeSort ["b"; "a"] (Z.of_nat 0) (Z.of_nat 2) LastLetterAscStrComp = Fault.
Proof.
  apply (MergeSort_beyond_the_end LastLetterAscStrComp ["b"; "a"] 0 2).
  - intros a b. rewrite LastLetterAsc_answers. apply returns_Done.
  - lia.
  - simpl. lia.
  - unfold INT_MAX. lia.
Defined.
